(** * Truncated Gaussian distributions and the UMAU bound solver

    A shallow embedding of [selection/truncated.py]: the class
    [truncated_gaussian], the module-level batch functions [G] and [dG],
    and the solver [_UMAU].

    Numbers are extended rationals with a not-a-number value, compared the
    IEEE way (every ordered comparison with NaN is false, [!=] with NaN is
    true); arithmetic is exact, rounding is not modelled.  The Gaussian
    primitives [_cdf], [_dnorm] and [_qnorm] come from modules that are not
    part of this file ([selection.intervals], mpmath); they are section
    variables.  Python objects live in a store indexed by object identity,
    so that aliasing and in-place mutation of [mu], [sigma], [P], [D] and
    [_negated] are explicit.  Arrays are lists: the source never updates an
    array in place, and [np.sort] returns a copy. *)

From Stdlib Require Import QArith Qabs Lqa Bool List Lia.
From stdpp Require Import gmap list sorting.
Import ListNotations.

Local Open Scope Q_scope.

(** ** Numbers *)

Inductive num : Type :=
| NaN
| NInf
| Fin (q : Q)
| PInf.

Definition Qlt_bool (p q : Q) : bool := negb (Qle_bool q p).

(** [x < y] *)
Definition num_lt (x y : num) : bool :=
  match x, y with
  | NInf, Fin _ | NInf, PInf | Fin _, PInf => true
  | Fin p, Fin q => Qlt_bool p q
  | _, _ => false
  end.

(** [x <= y] *)
Definition num_le (x y : num) : bool :=
  match x, y with
  | NInf, NInf | NInf, Fin _ | NInf, PInf | Fin _, PInf | PInf, PInf => true
  | Fin p, Fin q => Qle_bool p q
  | _, _ => false
  end.

(** [x == y] *)
Definition num_eq (x y : num) : bool :=
  match x, y with
  | NInf, NInf | PInf, PInf => true
  | Fin p, Fin q => Qeq_bool p q
  | _, _ => false
  end.

(** [x != y], [x > y], [x >= y] *)
Definition num_ne (x y : num) : bool := negb (num_eq x y).
Definition num_gt (x y : num) : bool := num_lt y x.
Definition num_ge (x y : num) : bool := num_le y x.

Definition num_neg (x : num) : num :=
  match x with
  | NaN => NaN
  | NInf => PInf
  | Fin q => Fin (- q)
  | PInf => NInf
  end.

Definition num_add (x y : num) : num :=
  match x, y with
  | NaN, _ | _, NaN => NaN
  | PInf, NInf | NInf, PInf => NaN
  | PInf, _ | _, PInf => PInf
  | NInf, _ | _, NInf => NInf
  | Fin p, Fin q => Fin (p + q)
  end.

Definition num_sub (x y : num) : num := num_add x (num_neg y).

(** sign of a rational: [Gt] positive, [Lt] negative, [Eq] zero *)
Definition Qsign (q : Q) : comparison := (q ?= 0)%Q.

(** the infinity whose sign is the sign [c] times the sign of [x];
    a zero sign gives NaN *)
Definition inf_of_sign (c : comparison) (x : num) : num :=
  match c with
  | Eq => NaN
  | Gt => x
  | Lt => num_neg x
  end.

Definition num_mul (x y : num) : num :=
  match x, y with
  | NaN, _ | _, NaN => NaN
  | PInf, PInf | NInf, NInf => PInf
  | PInf, NInf | NInf, PInf => NInf
  | PInf, Fin q | Fin q, PInf => inf_of_sign (Qsign q) PInf
  | NInf, Fin q | Fin q, NInf => inf_of_sign (Qsign q) NInf
  | Fin p, Fin q => Fin (p * q)
  end.

(** Division the numpy way: a finite nonzero value over zero is an
    infinity of the sign of the numerator, zero over zero is NaN. *)
Definition num_div (x y : num) : num :=
  match x, y with
  | NaN, _ | _, NaN => NaN
  | (PInf | NInf), (PInf | NInf) => NaN
  | Fin _, (PInf | NInf) => Fin 0
  | PInf, Fin q => match Qsign q with Lt => NInf | _ => PInf end
  | NInf, Fin q => match Qsign q with Lt => PInf | _ => NInf end
  | Fin p, Fin q =>
      if Qeq_bool q 0 then inf_of_sign (Qsign p) PInf else Fin (p / q)
  end.

Definition num_abs (x : num) : num :=
  match x with
  | NaN => NaN
  | NInf | PInf => PInf
  | Fin q => Fin (Qabs q)
  end.

Definition num_sum (l : list num) : num := fold_left num_add l (Fin 0).

(** Python's builtin two-argument [max] and [min]: the first argument is
    kept unless the second compares strictly beyond it. *)
Definition py_max (x y : num) : num := if num_gt y x then y else x.
Definition py_min (x y : num) : num := if num_lt y x then y else x.

(** ** Exceptions and results *)

Inductive exn : Type :=
| ValueError_not_disjoint      (* 'intervals are not disjoint: x is in ...' *)
| ValueError_not_in_support    (* 'x is not in the support' *)
| ValueError_reshape           (* reshape((-1,2)) of an odd-length array *)
| ValueError_max_empty         (* max() of an empty sequence *)
| IndexError
| NameError_mu_ho              (* name 'mu_ho' is not defined *)
| UnboundLocalError_mu_bar
| AttributeError.              (* attribute access on a missing object *)

Inductive result (A : Type) : Type :=
| Ok (a : A)
| Raise (e : exn).
Arguments Ok {A} a.
Arguments Raise {A} e.

Definition rbind {A B} (r : result A) (k : A -> result B) : result B :=
  match r with
  | Ok a => k a
  | Raise e => Raise e
  end.

Declare Scope result_scope.
Delimit Scope result_scope with result.
Notation "x <- r ;; k" := (rbind r (fun x => k))
  (at level 100, r at next level, right associativity) : result_scope.

(** ** numpy helpers *)

(** order used by [np.sort]: ascending, NaN last *)
Definition sort_le (x y : num) : bool :=
  match y with
  | NaN => true
  | _ => num_le x y
  end.

Fixpoint sort_insert (x : num) (l : list num) : list num :=
  match l with
  | [] => [x]
  | y :: l' => if sort_le x y then x :: l else y :: sort_insert x l'
  end.

Definition np_sort (l : list num) : list num := fold_right sort_insert [] l.

(** [a.reshape((-1,2))] *)
Fixpoint reshape2 (l : list num) : result (list (num * num)) :=
  match l with
  | [] => Ok []
  | [_] => Raise ValueError_reshape
  | a :: b :: l' =>
      match reshape2 l' with
      | Ok r => Ok ((a, b) :: r)
      | Raise e => Raise e
      end
  end.

(** [a.reshape(-1)] of an array of rows of two *)
Definition flatten2 (l : list (num * num)) : list num :=
  flat_map (fun ab => [fst ab; snd ab]) l.

Fixpoint nonzero_from (i : nat) (l : list bool) : list nat :=
  match l with
  | [] => []
  | b :: l' => if b then i :: nonzero_from (S i) l' else nonzero_from (S i) l'
  end.

(** [np.nonzero(a)[0]] *)
Definition nonzero (l : list bool) : list nat := nonzero_from 0 l.

Fixpoint cumsum_from (acc : num) (l : list num) : list num :=
  match l with
  | [] => []
  | x :: l' => num_add acc x :: cumsum_from (num_add acc x) l'
  end.

(** [np.cumsum(a)] *)
Definition cumsum (l : list num) : list num := cumsum_from (Fin 0) l.

(** [max(k)] of a sequence of indices *)
Definition py_max_list (l : list nat) : result nat :=
  match l with
  | [] => Raise ValueError_max_empty
  | k :: l' => Ok (fold_left Nat.max l' k)
  end.

(** [a[k]] *)
Definition index {A} (l : list A) (k : nat) : result A :=
  match l !! k with
  | Some x => Ok x
  | None => Raise IndexError
  end.

(** ** The class [truncated_gaussian] *)

(** object identities *)
Abbreviation loc := nat.

Module truncated_gaussian.

Record t : Type := mk {
  _cutoff_array : list num;
  _mu : num;
  _sigma : num;
  P : list num;
  D : list (num * num);
  _negated : option loc           (* [None]: the attribute is not set *)
}.

Definition with_mu (self : t) (mu : num) : t :=
  mk (_cutoff_array self) mu (_sigma self) (P self) (D self) (_negated self).

Definition with_sigma (self : t) (sigma : num) : t :=
  mk (_cutoff_array self) (_mu self) sigma (P self) (D self) (_negated self).

Definition with_PD (self : t) (p : list num) (d : list (num * num)) : t :=
  mk (_cutoff_array self) (_mu self) (_sigma self) p d (_negated self).

Definition with_negated (self : t) (n : loc) : t :=
  mk (_cutoff_array self) (_mu self) (_sigma self) (P self) (D self) (Some n).

(** property [intervals] *)
Definition intervals (self : t) : result (list (num * num)) :=
  reshape2 (_cutoff_array self).

Section Methods.

Variable _cdf : num -> num -> num.
Variable _dnorm : num -> num.
Variable _qnorm : num -> num.

Local Open Scope result_scope.

Definition _mu_or_sigma_changed (self : t) : result t :=
  let mu := _mu self in
  let sigma := _sigma self in
  ivs <- intervals self ;;
  Ok (with_PD self
        (map (fun ab => _cdf (num_div (num_sub (fst ab) mu) sigma)
                             (num_div (num_sub (snd ab) mu) sigma)) ivs)
        (map (fun ab => (_dnorm (num_div (num_sub (fst ab) mu) sigma),
                         _dnorm (num_div (num_sub (snd ab) mu) sigma))) ivs)).

(** [__init__], on the flattened array of cut points *)
Definition init (intervals : list num) (mu sigma : num) : result t :=
  let cutoff := np_sort intervals in
  ivs <- reshape2 cutoff ;;
  let I := filter (fun ab => num_ne (num_sub (snd ab) (fst ab)) (Fin 0)) ivs in
  _mu_or_sigma_changed (mk (flatten2 I) mu sigma [] [] None).

(** [D[:,0] - D[:,1]]: with no interval at all, [D] is the
    one-dimensional empty array, which has no columns *)
Definition D0_minus_D1 (d : list (num * num)) : result (list num) :=
  match d with
  | [] => Raise IndexError
  | _ :: _ => Ok (map (fun d => num_sub (fst d) (snd d)) d)
  end.

(** property [delta]: [D[:,0] - D[:,1] + mu * P] *)
Definition delta (self : t) : result (list num) :=
  d <- D0_minus_D1 (D self) ;;
  Ok (map (fun dp => num_add (fst dp) (num_mul (_mu self) (snd dp)))
          (combine d (P self))).

Definition twosided (thresh mu sigma : num) : result t :=
  let thresh := num_abs thresh in
  init [NInf; num_neg thresh; thresh; PInf] mu sigma.

Definition find_interval (self : t) (x : num) : result nat :=
  ivs <- intervals self ;;
  let check := map (fun ab => num_ge x (fst ab) && num_lt x (snd ab)) ivs in
  let k := nonzero check in
  if (1 <? length k)%nat then Raise ValueError_not_disjoint
  else match k with
       | [] => Raise ValueError_not_in_support
       | k0 :: _ => Ok k0
       end.

Definition CDF (self : t) (x : num) : result num :=
  let mu := _mu self in
  k <- find_interval self x ;;
  ivs <- intervals self ;;
  ak <- index ivs k ;;
  Ok (num_div (num_add (num_sum (take k (P self)))
                       (_cdf (num_sub (fst ak) mu) (num_sub x mu)))
              (num_sum (P self))).

Definition quantile (self : t) (q : num) : result num :=
  let mu := _mu self in
  let Psum := num_sum (P self) in
  let Csum := cumsum (Fin 0 :: P self) in
  k <- py_max_list (nonzero (map (fun c => num_lt c (num_mul Psum q)) Csum)) ;;
  pnorm_increment <- (ck <- index Csum k ;; Ok (num_sub (num_mul Psum q) ck)) ;;
  ivs <- intervals self ;;
  ik <- index ivs k ;;
  if num_lt (num_div (num_add (fst ik) (snd ik)) (Fin 2)) (Fin 0)
  then Ok (num_add mu (_qnorm (num_add (_cdf NInf (num_sub (fst ik) mu))
                                       pnorm_increment)))
  else Ok (num_sub mu (_qnorm (num_sub (_cdf (num_sub (fst ik) mu) PInf)
                                       pnorm_increment))).

Definition right_endpoint (self : t) (left_endpoint alpha : num) : result num :=
  alpha1 <- CDF self left_endpoint ;;
  if num_gt alpha1 alpha then Ok NaN
  else
    let alpha2 := num_sub alpha alpha1 in
    quantile self (num_sub (Fin 1) alpha2).

Definition G (self : t) (left_endpoint alpha : num) : result num :=
  let mu := _mu self in
  d <- D0_minus_D1 (D self) ;;
  let const :=
    num_mul (num_sub (Fin 1) alpha)
      (num_add (num_sum d) (num_mul mu (num_sum (P self)))) in
  right_endpoint <- right_endpoint self left_endpoint alpha ;;
  ivs <- intervals self ;;
  let valid_intervals :=
    filter (fun i => num_gt (snd i) (fst i))
      (map (fun ab => (py_max left_endpoint (fst ab),
                       py_min right_endpoint (snd ab))) ivs) in
  match valid_intervals with
  | _ :: _ =>
      sub <- init (flatten2 valid_intervals) (_mu self) (_sigma self) ;;
      delta <- delta sub ;;
      Ok (num_sub (num_sum delta) const)
  | [] => Ok (Fin 0)
  end.

Definition dG (self : t) (left_endpoint alpha : num) : result num :=
  right_endpoint <- right_endpoint self left_endpoint alpha ;;
  Ok (num_mul (num_sub right_endpoint left_endpoint)
              (_dnorm (num_div (num_sub left_endpoint (_mu self)) (_sigma self)))).

End Methods.

End truncated_gaussian.

(** ** The object store *)

Abbreviation heap := (gmap loc truncated_gaussian.t).

(** A computation reads and updates the store and returns or raises; the
    store survives an exception. *)
Definition M (A : Type) : Type := heap -> result A * heap.

Definition ret {A} (a : A) : M A := fun h => (Ok a, h).

Definition raise {A} (e : exn) : M A := fun h => (Raise e, h).

Definition lift {A} (r : result A) : M A := fun h => (r, h).

Definition bind {A B} (m : M A) (k : A -> M B) : M B :=
  fun h =>
    match m h with
    | (Ok a, h') => k a h'
    | (Raise e, h') => (Raise e, h')
    end.

Declare Scope M_scope.
Delimit Scope M_scope with M.
Notation "x <- m ;; k" := (bind m (fun x => k))
  (at level 100, m at next level, right associativity) : M_scope.
Notation "m ;;; k" := (bind m (fun _ => k))
  (at level 100, right associativity) : M_scope.

Definition alloc (o : truncated_gaussian.t) : M loc :=
  fun h => let l := fresh (dom h) in (Ok l, <[l:=o]> h).

Definition deref (l : loc) : M truncated_gaussian.t :=
  fun h =>
    match h !! l with
    | Some o => (Ok o, h)
    | None => (Raise AttributeError, h)
    end.

Definition store (l : loc) (o : truncated_gaussian.t) : M unit :=
  fun h => (Ok tt, <[l:=o]> h).

Fixpoint for_each {A B} (f : A -> M B) (l : list A) : M (list B) :=
  match l with
  | [] => ret []
  | a :: l' => (b <- f a ;; bs <- for_each f l' ;; ret (b :: bs))%M
  end.

(** [while cond: body], at most [fuel] evaluations of the condition;
    [None] when the fuel runs out *)
Fixpoint while {S} (fuel : nat) (cond : S -> M bool) (body : S -> M S)
    (s : S) : M (option S) :=
  match fuel with
  | O => ret None
  | Datatypes.S fuel' =>
      (c <- cond s ;;
       if c then (s' <- body s ;; while fuel' cond body s') else ret (Some s))%M
  end.

Section Program.

Variable _cdf : num -> num -> num.
Variable _dnorm : num -> num.
Variable _qnorm : num -> num.

Local Open Scope M_scope.

(** [truncated_gaussian(intervals, mu, sigma)] *)
Definition new (intervals : list num) (mu sigma : num) : M loc :=
  o <- lift (truncated_gaussian.init _cdf _dnorm intervals mu sigma) ;;
  alloc o.

(** [set_mu], also run by the assignment [tg.mu = mu]: the new mean is
    stored first, the caches are rebuilt next *)
Definition set_mu (tg : loc) (mu : num) : M unit :=
  o <- deref tg ;;
  store tg (truncated_gaussian.with_mu o mu) ;;;
  o' <- lift (truncated_gaussian._mu_or_sigma_changed _cdf _dnorm
                (truncated_gaussian.with_mu o mu)) ;;
  store tg o'.

(** [set_sigma], also run by the assignment [tg.sigma = sigma] *)
Definition set_sigma (tg : loc) (sigma : num) : M unit :=
  o <- deref tg ;;
  store tg (truncated_gaussian.with_sigma o sigma) ;;;
  o' <- lift (truncated_gaussian._mu_or_sigma_changed _cdf _dnorm
                (truncated_gaussian.with_sigma o sigma)) ;;
  store tg o'.

(** [tg.negated] *)
Definition negated (tg : loc) : M loc :=
  o <- deref tg ;;
  match truncated_gaussian._negated o with
  | Some n => ret n
  | None =>
      n <- new (map num_neg (rev (truncated_gaussian._cutoff_array o)))
               (truncated_gaussian._mu o) (truncated_gaussian._sigma o) ;;
      o' <- deref tg ;;
      store tg (truncated_gaussian.with_negated o' n) ;;;
      ret n
  end.

(** [tg.G(left_endpoint, alpha)] and [tg.dG(left_endpoint, alpha)] *)
Definition call_G (tg : loc) (left_endpoint alpha : num) : M num :=
  o <- deref tg ;;
  lift (truncated_gaussian.G _cdf _dnorm _qnorm o left_endpoint alpha).

Definition call_dG (tg : loc) (left_endpoint alpha : num) : M num :=
  o <- deref tg ;;
  lift (truncated_gaussian.dG _cdf _dnorm _qnorm o left_endpoint alpha).

(** [tg.intervals] *)
Definition getattr_intervals (tg : loc) : M (list (num * num)) :=
  o <- deref tg ;;
  lift (truncated_gaussian.intervals o).

(** module-level [G] *)
Definition G (left_endpoints mus : list num) (alpha : num) (tg : loc)
    : M (list num) :=
  ivs <- getattr_intervals tg ;;
  tg <- new (flatten2 ivs) (Fin 0) (Fin 1) ;;
  for_each (fun lm => set_mu tg (snd lm) ;;; call_G tg (fst lm) alpha)
           (combine left_endpoints mus).

(** module-level [dG] *)
Definition dG (left_endpoints mus : list num) (alpha : num) (tg : loc)
    : M (list num) :=
  ivs <- getattr_intervals tg ;;
  tg <- new (flatten2 ivs) (Fin 0) (Fin 1) ;;
  for_each (fun lm => set_mu tg (snd lm) ;;; call_dG tg (fst lm) alpha)
           (combine left_endpoints mus).

(** *** The solver *)

(** first loop: [while tg.G(X, alpha) < 0] *)
Definition mu_too_high (tg : loc) (X alpha : num) (s : num * num) : M bool :=
  g <- call_G tg X alpha ;; ret (num_lt g (Fin 0)).

Definition lower_bracket (tg : loc) (s : num * num) : M (num * num) :=
  let mu_lo := fst s in
  let s' := (num_sub mu_lo (Fin 2), mu_lo) in
  set_mu tg (fst s') ;;;
  ret s'.

(** second loop: [while tg.G(X, alpha) > 0] *)
Definition mu_too_low (tg : loc) (X alpha : num) (s : num * num) : M bool :=
  g <- call_G tg X alpha ;; ret (num_gt g (Fin 0)).

(** reading the name [mu_ho], which no scope binds *)
Definition mu_ho : M num := raise NameError_mu_ho.

Definition raise_bracket (tg : loc) (s : num * num) : M (num * num) :=
  let mu_hi := snd s in
  let s' := (mu_hi, num_add mu_hi (Fin 2)) in
  v <- mu_ho ;;
  set_mu tg v ;;;
  ret s'.

(** third loop: [while mu_hi - mu_lo > tol]; the state is
    [(mu_lo, mu_hi, mu_bar)], [mu_bar] unbound before the first round.
    The midpoint is exact here, as all arithmetic of this development is;
    the source rounds [0.5 * (mu_lo + mu_hi)] to binary64, where a bracket
    one ulp wide no longer shrinks, so nothing is stated about the number
    of rounds the loop of the source takes. *)
Definition bracket_wide (tol : num) (s : num * num * option num) : M bool :=
  ret (num_gt (num_sub (snd (fst s)) (fst (fst s))) tol).

Definition bisect (tg : loc) (X alpha : num) (s : num * num * option num)
    : M (num * num * option num) :=
  let mu_lo := fst (fst s) in
  let mu_hi := snd (fst s) in
  let mu_bar := num_mul (Fin (1 # 2)) (num_add mu_lo mu_hi) in
  set_mu tg mu_bar ;;;
  g <- call_G tg X alpha ;;
  if num_lt g (Fin 0) then ret (mu_lo, mu_bar, Some mu_bar)
  else ret (mu_bar, mu_hi, Some mu_bar).

(** the three phases, each started from the state the previous one left *)
Definition bisection (fuel : nat) (tg : loc) (X alpha tol : num)
    (s : num * num) : M (option num) :=
  r <- while fuel (bracket_wide tol) (bisect tg X alpha) (s, None) ;;
  match r with
  | None => ret None
  | Some (_, Some mu_bar) => ret (Some mu_bar)
  | Some (_, None) => raise UnboundLocalError_mu_bar
  end.

Definition expand_high (fuel : nat) (tg : loc) (X alpha : num)
    (s : num * num) : M (option (num * num)) :=
  set_mu tg (snd s) ;;;
  while fuel (mu_too_low tg X alpha) (raise_bracket tg) s.

Definition expand_low (fuel : nat) (tg : loc) (X alpha : num)
    (s : num * num) : M (option (num * num)) :=
  set_mu tg (fst s) ;;;
  while fuel (mu_too_high tg X alpha) (lower_bracket tg) s.

(** [_UMAU(observed, alpha, tg, mu_lo, mu_hi, tol)]; [None] stands for an
    argument left at its default [None].  Each loop gets [fuel] rounds;
    the result is [None] when one of them uses them up. *)
Definition _UMAU (fuel : nat) (observed alpha : num) (tg : loc)
    (mu_lo mu_hi : option num) (tol : num) : M (option num) :=
  ivs <- getattr_intervals tg ;;
  sigma <- (o <- deref tg ;; ret (truncated_gaussian._sigma o)) ;;
  tg <- new (flatten2 ivs) (Fin 0) sigma ;;
  let X := observed in
  let mu_lo := match mu_lo with None => X | Some v => v end in
  let mu_hi := match mu_hi with None => num_add X (Fin 2) | Some v => v end in
  r1 <- expand_low fuel tg X alpha (mu_lo, mu_hi) ;;
  match r1 with
  | None => ret None
  | Some s1 =>
      r2 <- expand_high fuel tg X alpha s1 ;;
      match r2 with
      | None => ret None
      | Some s2 => bisection fuel tg X alpha tol s2
      end
  end.

End Program.

(** ** A rational instance of the primitives

    The algebraic sigmoid [Phi y = 1/2 + y / (2 (1 + |y|))] is strictly
    increasing from 0 to 1, symmetric about 0 and has a rational inverse
    and derivative.  It instantiates [_cdf], [_dnorm] and [_qnorm] when the
    model is run on concrete inputs. *)

Definition sigmoid_Phi (y : num) : num :=
  match y with
  | NaN => NaN
  | NInf => Fin 0
  | PInf => Fin 1
  | Fin q => Fin ((1 # 2) + q / (2 * (1 + Qabs q)))
  end.

Definition sigmoid_cdf (a b : num) : num := num_sub (sigmoid_Phi b) (sigmoid_Phi a).

Definition sigmoid_dnorm (y : num) : num :=
  match y with
  | NaN => NaN
  | NInf | PInf => Fin 0
  | Fin q => Fin (1 / (2 * (1 + Qabs q) * (1 + Qabs q)))
  end.

Definition sigmoid_qnorm (p : num) : num :=
  match p with
  | Fin p =>
      let t := 2 * p - 1 in
      if Qle_bool 1 t then PInf
      else if Qle_bool t (-1) then NInf
      else Fin (t / (1 - Qabs t))
  | _ => NaN
  end.


(** ** Specification-level notions *)

(** [x] lies in the half-open interval [[a, b)] *)
Definition contains (ab : num * num) (x : num) : Prop :=
  num_le (fst ab) x = true /\ num_lt x (snd ab) = true.

(** unnormalized mass of [[a, b)] under the Gaussian with parameters
    [(mu, sigma)]: [Phi((b - mu)/sigma) - Phi((a - mu)/sigma)] *)
Definition mass (_cdf : num -> num -> num) (mu sigma : num)
    (ab : num * num) : num :=
  _cdf (num_div (num_sub (fst ab) mu) sigma)
       (num_div (num_sub (snd ab) mu) sigma).

(** the pair of boundary densities of [[a, b)] *)
Definition boundary_density (_dnorm : num -> num) (mu sigma : num)
    (ab : num * num) : num * num :=
  (_dnorm (num_div (num_sub (fst ab) mu) sigma),
   _dnorm (num_div (num_sub (snd ab) mu) sigma)).

(** the test [D != 0] of the constructor *)
Definition nonzero_width (ab : num * num) : bool :=
  num_ne (num_sub (snd ab) (fst ab)) (Fin 0).

(** the intersection of [[left, right]] with a support interval, and the
    test that keeps it *)
Definition intersection (left right : num) (ab : num * num) : num * num :=
  (py_max left (fst ab), py_min right (snd ab)).

Definition nonempty (i : num * num) : bool := num_gt (snd i) (fst i).

(** [f] applied to the items of a list in order, up to the first
    exception *)
Fixpoint result_map {A B} (f : A -> result B) (l : list A) : result (list B) :=
  match l with
  | [] => Ok []
  | a :: l' =>
      match f a with
      | Ok b => match result_map f l' with
                | Ok bs => Ok (b :: bs)
                | Raise e => Raise e
                end
      | Raise e => Raise e
      end
  end.

(** the invariant of the class: [P] and [D] are the caches for the
    current [mu] and [sigma] *)
Definition caches_current (_cdf : num -> num -> num) (_dnorm : num -> num)
    (self : truncated_gaussian.t) : Prop :=
  exists ivs,
    truncated_gaussian.intervals self = Ok ivs /\
    truncated_gaussian.P self
      = map (mass _cdf (truncated_gaussian._mu self)
                       (truncated_gaussian._sigma self)) ivs /\
    truncated_gaussian.D self
      = map (boundary_density _dnorm (truncated_gaussian._mu self)
                                     (truncated_gaussian._sigma self)) ivs.

(** [CDF(x)] as the data model defines it: the full masses of the
    intervals before the one containing [x], plus the mass of
    [[a_k, x)] under the same Gaussian, over the total mass *)
Definition CDF_spec (_cdf : num -> num -> num) (self : truncated_gaussian.t)
    (x : num) : result num :=
  let mu := truncated_gaussian._mu self in
  let sigma := truncated_gaussian._sigma self in
  (k <- truncated_gaussian.find_interval self x ;;
   ivs <- truncated_gaussian.intervals self ;;
   ak <- index ivs k ;;
   Ok (num_div (num_add (num_sum (map (mass _cdf mu sigma) (take k ivs)))
                        (mass _cdf mu sigma (fst ak, x)))
               (num_sum (map (mass _cdf mu sigma) ivs))))%result.

(** ** Sample objects *)

(** the two-sided truncation [(-inf,-1), (1,inf)] with [mu = 0, sigma = 1] *)
Definition two_tails : truncated_gaussian.t :=
  truncated_gaussian.mk [NInf; Fin (-1); Fin 1; PInf] (Fin 0) (Fin 1)
    [sigmoid_cdf NInf (Fin (-1)); sigmoid_cdf (Fin 1) PInf]
    [(sigmoid_dnorm NInf, sigmoid_dnorm (Fin (-1)));
     (sigmoid_dnorm (Fin 1), sigmoid_dnorm PInf)]
    None.

(** no truncation at all: the single interval [(-inf, inf)] *)
Definition whole_line : truncated_gaussian.t :=
  truncated_gaussian.mk [NInf; PInf] (Fin 0) (Fin 1)
    [sigmoid_cdf NInf PInf] [(sigmoid_dnorm NInf, sigmoid_dnorm PInf)] None.

(** the same support with [mu = 3] and [sigma = 2] *)
Definition two_tails_scaled : truncated_gaussian.t :=
  truncated_gaussian.mk [NInf; Fin (-1); Fin 1; PInf] (Fin 3) (Fin 2)
    (map (mass sigmoid_cdf (Fin 3) (Fin 2)) [(NInf, Fin (-1)); (Fin 1, PInf)])
    (map (boundary_density sigmoid_dnorm (Fin 3) (Fin 2))
         [(NInf, Fin (-1)); (Fin 1, PInf)])
    None.

(** an object whose cut points were not sorted by the constructor:
    the intervals [(-1, 1)] and [(0, 2)] overlap on [[0, 1)] *)
Definition overlapping : truncated_gaussian.t :=
  truncated_gaussian.mk [Fin (-1); Fin 1; Fin 0; Fin 2] (Fin 0) (Fin 1)
    [] [] None.

Definition is_nan (x : num) : bool :=
  match x with NaN => true | _ => false end.

Definition is_ninf (x : num) : bool :=
  match x with NInf => true | _ => false end.

Definition is_pinf (x : num) : bool :=
  match x with PInf => true | _ => false end.

(** cut points without NaN and with each infinity at most once *)
Definition tame (raw : list num) : Prop :=
  Forall (fun x => is_nan x = false) raw /\
  (length (filter is_ninf raw) <= 1)%nat /\
  (length (filter is_pinf raw) <= 1)%nat.

(** [x <= y] as a relation *)
Definition Rle (x y : num) : Prop := num_le x y = true.

(** the order of [np.sort] as a relation: [x <= y], or [y] is NaN *)
Definition Rsort (x y : num) : Prop := sort_le x y = true.

(** the reflection of an interval about 0 *)
Definition reflect (ab : num * num) : num * num :=
  (num_neg (snd ab), num_neg (fst ab)).

(** a finite, non-negative number *)
Definition nonneg (x : num) : Prop := exists q : Q, x = Fin q /\ 0 <= q.

(** a computation that changes no object of the store other than [w] *)
Definition only {A} (w : loc) (m : M A) : Prop :=
  forall (h : heap) (l : loc), l <> w -> snd (m h) !! l = h !! l.

(** ** Properties of the helpers *)

Lemma num_div_1 (x : num) : num_div x (Fin 1) = x.
Proof.
  destruct x as [| |[n d]|]; try reflexivity.
  cbn. unfold Qdiv, Qmult, Qinv. cbn.
  now rewrite Z.mul_1_r, Pos.mul_1_r.
Qed.

Lemma num_add_0_l (x : num) : num_add (Fin 0) x = x.
Proof.
  destruct x as [| |[n d]|]; try reflexivity.
  cbn. unfold Qplus. cbn -[Z.mul].
  now rewrite Z.mul_0_l, Z.mul_1_r.
Qed.

Lemma num_sub_0_r (x : num) : num_sub x (Fin 0) = x.
Proof.
  destruct x as [| |[n d]|]; try reflexivity.
  cbn. unfold Qplus. cbn.
  now rewrite Z.mul_1_r, Z.add_0_r, Pos.mul_1_r.
Qed.

Lemma contains_check (ab : num * num) (x : num) :
  num_ge x (fst ab) && num_lt x (snd ab) = true <-> contains ab x.
Proof. unfold contains, num_ge. now rewrite andb_true_iff. Qed.

Lemma nonzero_from_none (s : nat) (l : list bool) :
  (forall j, l !! j <> Some true) -> nonzero_from s l = [].
Proof.
  revert s. induction l as [|b l IH]; intros s H; [reflexivity|].
  cbn. destruct b.
  - now specialize (H 0%nat).
  - apply IH. intros j. exact (H (S j)).
Qed.

Lemma nonzero_from_some (s j : nat) (l : list bool) :
  l !! j = Some true -> (s + j)%nat ∈ nonzero_from s l.
Proof.
  revert s j. induction l as [|b l IH]; intros s j H; [discriminate|].
  destruct j as [|j]; cbn in *.
  - injection H as ->. rewrite Nat.add_0_r. left.
  - specialize (IH (S s) j H). replace (s + S j)%nat with (S s + j)%nat by lia.
    destruct b; [right|]; exact IH.
Qed.

Lemma nonzero_from_unique (s i : nat) (l : list bool) :
  l !! i = Some true ->
  (forall j, l !! j = Some true -> j = i) ->
  nonzero_from s l = [(s + i)%nat].
Proof.
  revert s i. induction l as [|b l IH]; intros s i Hi Hu; [discriminate|].
  destruct i as [|i]; cbn in *.
  - injection Hi as ->. rewrite Nat.add_0_r. f_equal.
    apply nonzero_from_none. intros j Hj. specialize (Hu (S j) Hj). discriminate.
  - destruct b.
    + specialize (Hu 0%nat eq_refl). discriminate.
    + replace (s + S i)%nat with (S s + i)%nat by lia.
      apply IH; [exact Hi|]. intros j Hj. specialize (Hu (S j) Hj). lia.
Qed.

Lemma nonzero_from_two (s i j : nat) (l : list bool) :
  (i < j)%nat -> l !! i = Some true -> l !! j = Some true ->
  (1 < length (nonzero_from s l))%nat.
Proof.
  revert s i j. induction l as [|b l IH]; intros s i j Hij Hi Hj; [discriminate|].
  destruct j as [|j]; [lia|]. cbn in Hj.
  destruct i as [|i]; cbn in *.
  - injection Hi as ->. cbn.
    pose proof (nonzero_from_some (S s) j l Hj) as Hin.
    destruct (nonzero_from (S s) l); [inversion Hin | cbn; lia].
  - assert (1 < length (nonzero_from (S s) l))%nat by (apply (IH _ i j); [lia|done..]).
    destruct b; cbn; lia.
Qed.

Lemma reshape2_flatten2 (ivs : list (num * num)) :
  reshape2 (flatten2 ivs) = Ok ivs.
Proof.
  induction ivs as [|[a b] ivs IH]; [reflexivity|].
  cbn. unfold flatten2 in IH. now rewrite IH.
Qed.

Section Properties.

Variable _cdf : num -> num -> num.
Variable _dnorm : num -> num.
Variable _qnorm : num -> num.

(** the module-level functions [G] and [dG], before the methods of the
    same names come into scope *)
Local Abbreviation batch_G := G.
Local Abbreviation batch_dG := dG.

Import truncated_gaussian.

Local Abbreviation init := (truncated_gaussian.init _cdf _dnorm).
Local Abbreviation CDF := (truncated_gaussian.CDF _cdf).
Local Abbreviation quantile := (truncated_gaussian.quantile _cdf _qnorm).
Local Abbreviation right_endpoint := (truncated_gaussian.right_endpoint _cdf _qnorm).
Local Abbreviation G_method := (truncated_gaussian.G _cdf _dnorm _qnorm).
Local Abbreviation dG_method := (truncated_gaussian.dG _cdf _dnorm _qnorm).

(** *** Point queries *)

Lemma find_interval_unique (self : t) (x : num) ivs i ab :
  intervals self = Ok ivs ->
  ivs !! i = Some ab -> contains ab x ->
  (forall j ab', ivs !! j = Some ab' -> contains ab' x -> j = i) ->
  find_interval self x = Ok i.
Proof.
  intros Hiv Hi Hc Hu. unfold find_interval. rewrite Hiv. cbn.
  set (check := map _ ivs).
  assert (Hcheck : forall j, check !! j = Some true <->
                     exists ab', ivs !! j = Some ab' /\ contains ab' x).
  { intros j. unfold check. rewrite list_lookup_fmap.
    destruct (ivs !! j) as [ab'|]; cbn.
    - split.
      + intros [= H]. exists ab'. split; [done|]. now apply contains_check.
      + intros (ab'' & [= <-] & H). f_equal. now apply contains_check.
    - split; [discriminate|]. now intros (? & ? & _). }
  unfold nonzero. rewrite (nonzero_from_unique 0 i); [reflexivity| |].
  - apply Hcheck. eauto.
  - intros j Hj. apply Hcheck in Hj as (ab' & Hj & Hc'). eauto.
Qed.

Lemma find_interval_none (self : t) (x : num) ivs :
  intervals self = Ok ivs ->
  (forall j ab, ivs !! j = Some ab -> ~ contains ab x) ->
  find_interval self x = Raise ValueError_not_in_support.
Proof.
  intros Hiv Hn. unfold find_interval. rewrite Hiv. cbn.
  unfold nonzero. rewrite nonzero_from_none; [reflexivity|].
  intros j. rewrite list_lookup_fmap.
  destruct (ivs !! j) as [ab|] eqn:E; cbn; [|discriminate].
  intros [= H]. apply contains_check in H. exact (Hn j ab E H).
Qed.

Lemma find_interval_ambiguous (self : t) (x : num) ivs i j abi abj :
  intervals self = Ok ivs ->
  i <> j ->
  ivs !! i = Some abi -> contains abi x ->
  ivs !! j = Some abj -> contains abj x ->
  find_interval self x = Raise ValueError_not_disjoint.
Proof.
  intros Hiv Hne Hi Hci Hj Hcj. unfold find_interval. rewrite Hiv. cbn [rbind].
  set (check := map _ ivs).
  assert (Hci' : check !! i = Some true).
  { unfold check. rewrite list_lookup_fmap, Hi. cbn. f_equal. now apply contains_check. }
  assert (Hcj' : check !! j = Some true).
  { unfold check. rewrite list_lookup_fmap, Hj. cbn. f_equal. now apply contains_check. }
  assert (Hlen : (1 < length (nonzero check))%nat).
  { unfold nonzero. destruct (Nat.lt_ge_cases i j).
    - now apply (nonzero_from_two 0 i j).
    - apply (nonzero_from_two 0 j i); [lia|done..]. }
  apply Nat.ltb_lt in Hlen. now rewrite Hlen.
Qed.

(** *** The constructor *)

Lemma mu_or_sigma_changed_Ok (self : t) ivs :
  intervals self = Ok ivs ->
  _mu_or_sigma_changed _cdf _dnorm self =
    Ok (with_PD self (map (mass _cdf (_mu self) (_sigma self)) ivs)
                     (map (boundary_density _dnorm (_mu self) (_sigma self)) ivs)).
Proof. intros H. unfold _mu_or_sigma_changed. now rewrite H. Qed.

Lemma init_Ok (raw : list num) (mu sigma : num) ivs :
  reshape2 (np_sort raw) = Ok ivs ->
  init raw mu sigma =
    Ok (mk (flatten2 (filter nonzero_width ivs)) mu sigma
           (map (mass _cdf mu sigma) (filter nonzero_width ivs))
           (map (boundary_density _dnorm mu sigma) (filter nonzero_width ivs))
           None).
Proof.
  intros H. unfold truncated_gaussian.init. rewrite H. cbn [rbind].
  erewrite mu_or_sigma_changed_Ok; [reflexivity|].
  apply reshape2_flatten2.
Qed.

Lemma init_Raise (raw : list num) (mu sigma : num) e :
  reshape2 (np_sort raw) = Raise e -> init raw mu sigma = Raise e.
Proof. intros H. unfold truncated_gaussian.init. now rewrite H. Qed.

Lemma init_intervals (raw : list num) (mu sigma : num) (o : t) :
  init raw mu sigma = Ok o ->
  exists ivs, reshape2 (np_sort raw) = Ok ivs /\
              intervals o = Ok (filter nonzero_width ivs) /\
              _mu o = mu /\ _sigma o = sigma /\ _negated o = None /\
              P o = map (mass _cdf mu sigma) (filter nonzero_width ivs).
Proof.
  intros H. destruct (reshape2 (np_sort raw)) as [ivs|e] eqn:E.
  - rewrite (init_Ok _ _ _ _ E) in H. injection H as <-.
    exists ivs. repeat split. apply reshape2_flatten2.
  - rewrite (init_Raise _ _ _ _ E) in H. discriminate.
Qed.

(** *** C5 *)

(** C5: [find_interval x] returns the unique index [i] with
    [a_i <= x < b_i] when exactly one interval contains [x], raises the
    not-in-support error when none does, and raises the not-disjoint error
    when two distinct intervals do.  On the distribution built from
    [(-inf,-1), (1,inf)], [find_interval 0] raises the not-in-support
    error. *)
Theorem find_interval_spec (self : t) (x : num) (ivs : list (num * num)) :
  intervals self = Ok ivs ->
  (forall i ab, ivs !! i = Some ab -> contains ab x ->
     (forall j ab', ivs !! j = Some ab' -> contains ab' x -> j = i) ->
     find_interval self x = Ok i) /\
  ((forall j ab, ivs !! j = Some ab -> ~ contains ab x) ->
     find_interval self x = Raise ValueError_not_in_support) /\
  (forall i j abi abj, i <> j ->
     ivs !! i = Some abi -> contains abi x ->
     ivs !! j = Some abj -> contains abj x ->
     find_interval self x = Raise ValueError_not_disjoint) /\
  (exists o, init [NInf; Fin (-1); Fin 1; PInf] (Fin 0) (Fin 1) = Ok o /\
             find_interval o (Fin 0) = Raise ValueError_not_in_support).
Proof.
  intros Hiv. repeat split.
  - intros i ab. now apply find_interval_unique.
  - now apply find_interval_none.
  - intros i j abi abj. now apply find_interval_ambiguous.
  - eexists. split; [apply init_Ok; reflexivity|]. reflexivity.
Qed.

(** *** C3 *)

Lemma nonzero_from_elem (s k : nat) (l : list bool) :
  k ∈ nonzero_from s l -> exists j, k = (s + j)%nat /\ l !! j = Some true.
Proof.
  revert s. induction l as [|b l IH]; intros s H; [inversion H|].
  cbn in H. destruct b.
  - apply elem_of_cons in H as [->|H].
    + exists 0%nat. split; [lia | reflexivity].
    + destruct (IH _ H) as (j & -> & Hj). exists (S j). split; [lia | exact Hj].
  - destruct (IH _ H) as (j & -> & Hj). exists (S j). split; [lia | exact Hj].
Qed.

(** the index returned by [find_interval] is that of an interval
    containing [x] *)
Lemma find_interval_sound (self : t) (x : num) (k : nat) :
  find_interval self x = Ok k ->
  exists ivs ab, intervals self = Ok ivs /\ ivs !! k = Some ab /\ contains ab x.
Proof.
  unfold find_interval. destruct (intervals self) as [ivs|e]; [|discriminate].
  cbn [rbind]. set (check := map _ ivs).
  destruct (1 <? length (nonzero check))%nat; [discriminate|].
  destruct (nonzero check) as [|k0 ks] eqn:E; [discriminate|].
  intros [= <-].
  destruct (nonzero_from_elem 0 k0 check) as (j & -> & Hj).
  { unfold nonzero in E. rewrite E. left. }
  unfold check in Hj. rewrite list_lookup_fmap in Hj.
  destruct (ivs !! j) as [ab|] eqn:Hab; [|discriminate].
  exists ivs, ab. split; [reflexivity|]. split; [exact Hab|].
  apply contains_check. now injection Hj.
Qed.

Lemma mu_or_sigma_changed_current (self o' : t) :
  _mu_or_sigma_changed _cdf _dnorm self = Ok o' ->
  caches_current _cdf _dnorm o'.
Proof.
  unfold _mu_or_sigma_changed.
  destruct (intervals self) as [ivs|e] eqn:E; cbn [rbind]; [|discriminate].
  intros [= <-]. exists ivs. now repeat split.
Qed.

Lemma init_current (raw : list num) (mu sigma : num) (o : t) :
  init raw mu sigma = Ok o -> caches_current _cdf _dnorm o.
Proof.
  unfold truncated_gaussian.init.
  destruct (reshape2 (np_sort raw)); cbn [rbind]; [|discriminate].
  apply mu_or_sigma_changed_current.
Qed.

(** on an object that has an interval, [D] has its two columns *)
Lemma D0_minus_D1_Ok (self : t) (x : num) (k : nat) :
  caches_current _cdf _dnorm self -> find_interval self x = Ok k ->
  exists d, D0_minus_D1 (D self) = Ok d.
Proof.
  intros (ivs & Hiv & _ & HD) Hk.
  apply find_interval_sound in Hk as (ivs' & ab & Hiv' & Hab & _).
  rewrite Hiv in Hiv'. injection Hiv' as <-. rewrite HD.
  destruct ivs; [discriminate|]. eexists. reflexivity.
Qed.

Lemma py_min_NaN (b : num) : py_min NaN b = NaN.
Proof. now destruct b. Qed.

Lemma num_gt_NaN (y : num) : num_gt NaN y = false.
Proof. now destruct y. Qed.

Lemma right_endpoint_inv (self : t) (left_endpoint alpha re : num) :
  right_endpoint self left_endpoint alpha = Ok re ->
  exists k, find_interval self left_endpoint = Ok k.
Proof.
  unfold truncated_gaussian.right_endpoint, truncated_gaussian.CDF.
  destruct (find_interval self left_endpoint) as [k|e]; [eauto | discriminate].
Qed.

Lemma G_no_intersection (self : t) (left_endpoint alpha re : num) ivs :
  caches_current _cdf _dnorm self ->
  right_endpoint self left_endpoint alpha = Ok re ->
  intervals self = Ok ivs ->
  (forall ab, ab ∈ ivs -> nonempty (intersection left_endpoint re ab) = false) ->
  G_method self left_endpoint alpha = Ok (Fin 0).
Proof.
  intros Hcur Hre Hiv Hempty. unfold truncated_gaussian.G.
  destruct (right_endpoint_inv _ _ _ _ Hre) as [k Hk].
  destruct (D0_minus_D1_Ok self left_endpoint k Hcur Hk) as [d ->].
  rewrite Hre, Hiv. cbn [rbind].
  replace (filter _ _) with (@nil (num * num)); [reflexivity|].
  symmetry. clear Hiv Hcur. induction ivs as [|ab ivs IH]; [reflexivity|].
  cbn [map]. rewrite filter_cons.
  pose proof (Hempty ab ltac:(left)) as H.
  unfold nonempty, intersection in H. cbn [fst snd] in *.
  destruct (decide _) as [Hd|Hd].
  - cbn [fst snd] in Hd. rewrite H in Hd. now cbn in Hd.
  - apply IH. intros ab' Hin. apply Hempty. now right.
Qed.

(** C3: on every distribution (an object whose caches are current),
    [right_endpoint] returns the not-a-number sentinel whenever
    [CDF(left_endpoint) > alpha]; [G] then finds no non-empty intersection
    and returns exactly 0, as it does whenever no intersection of
    [[left_endpoint, right_endpoint]] with a support interval is
    non-empty. *)
Theorem right_endpoint_sentinel (self : t) (left_endpoint alpha : num) :
  caches_current _cdf _dnorm self ->
  (forall alpha1, CDF self left_endpoint = Ok alpha1 ->
     num_gt alpha1 alpha = true ->
     right_endpoint self left_endpoint alpha = Ok NaN /\
     G_method self left_endpoint alpha = Ok (Fin 0)) /\
  (forall re ivs, right_endpoint self left_endpoint alpha = Ok re ->
     intervals self = Ok ivs ->
     (forall ab, ab ∈ ivs ->
        nonempty (intersection left_endpoint re ab) = false) ->
     G_method self left_endpoint alpha = Ok (Fin 0)).
Proof.
  intros Hcur. split.
  - intros alpha1 Hcdf Hgt.
    assert (Hre : right_endpoint self left_endpoint alpha = Ok NaN).
    { unfold truncated_gaussian.right_endpoint. rewrite Hcdf. cbn [rbind].
      now rewrite Hgt. }
    split; [exact Hre|].
    destruct Hcur as (ivs & Hiv & HPD).
    apply (G_no_intersection _ _ _ NaN ivs); [now exists ivs|done..|].
    intros ab _. unfold nonempty, intersection. cbn [fst snd].
    rewrite py_min_NaN. apply num_gt_NaN.
  - intros re ivs. now apply G_no_intersection.
Qed.

(** *** C4 *)

Lemma num_lt_not_le (x y : num) : num_lt x y = true -> num_le y x = false.
Proof.
  destruct x, y; cbn; try easy.
  unfold Qlt_bool. now destruct (Qle_bool _ _).
Qed.

Lemma num_le_not_lt (x y : num) : num_le x y = true -> num_lt y x = false.
Proof.
  destruct x, y; cbn; try easy.
  unfold Qlt_bool. now intros ->.
Qed.

(** *** C1 *)

Lemma call_G_heap (tg : loc) (X alpha : num) (h : heap) :
  snd (call_G _cdf _dnorm _qnorm tg X alpha h) = h.
Proof.
  unfold call_G, bind, deref, lift. now destruct (h !! tg).
Qed.

Lemma while_first_round_raises {S} (fuel : nat) (cond : S -> M bool)
    (body : S -> M S) (s : S) (h h1 h2 : heap) (e : exn) :
  cond s h = (Ok true, h1) -> body s h1 = (Raise e, h2) ->
  while (Datatypes.S fuel) cond body s h = (Raise e, h2).
Proof.
  intros Hc Hb. cbn [while]. unfold bind at 1. rewrite Hc.
  unfold bind at 1. now rewrite Hb.
Qed.

Lemma mu_too_low_true (tg : loc) (X alpha g : num) (s : num * num)
    (h h' : heap) :
  call_G _cdf _dnorm _qnorm tg X alpha h = (Ok g, h') ->
  num_gt g (Fin 0) = true ->
  mu_too_low _cdf _dnorm _qnorm tg X alpha s h = (Ok true, h').
Proof.
  intros HG Hpos. unfold mu_too_low, bind, ret. now rewrite HG, Hpos.
Qed.

(** a round of the second loop never gets past the name [mu_ho] *)
Lemma raise_bracket_raises (tg : loc) (s : num * num) (h : heap) :
  raise_bracket _cdf _dnorm tg s h = (Raise NameError_mu_ho, h).
Proof. reflexivity. Qed.

(** C1, as the code has it: when the loop condition of the bracket-high
    expansion holds at entry ([G > 0] at the initial high guess), the first
    round reads the unbound name [mu_ho] and the phase ends with a
    NameError; the bracket is never moved and bisection is never reached. *)
Theorem expand_high_NameError (fuel : nat) (tg : loc) (X alpha : num)
    (s : num * num) (h h1 h2 : heap) (g : num) :
  set_mu _cdf _dnorm tg (snd s) h = (Ok tt, h1) ->
  call_G _cdf _dnorm _qnorm tg X alpha h1 = (Ok g, h2) ->
  num_gt g (Fin 0) = true ->
  expand_high _cdf _dnorm _qnorm (S fuel) tg X alpha s h
    = (Raise NameError_mu_ho, h2).
Proof.
  intros Hset HG Hpos.
  unfold expand_high, bind. rewrite Hset.
  apply (while_first_round_raises _ _ _ _ _ h2 h2).
  - now apply (mu_too_low_true _ _ _ g).
  - apply raise_bracket_raises.
Qed.

(** The whole solver stops there as well. *)
Lemma _UMAU_NameError (fuel : nat) (observed alpha tol : num) (tg w : loc)
    (mu_lo mu_hi : option num) (o : t) ivs (h hw h1 h2 h3 : heap)
    (s1 : num * num) (g : num) :
  h !! tg = Some o ->
  intervals o = Ok ivs ->
  new _cdf _dnorm (flatten2 ivs) (Fin 0) (_sigma o) h = (Ok w, hw) ->
  expand_low _cdf _dnorm _qnorm (S fuel) w observed alpha
    (match mu_lo with None => observed | Some v => v end,
     match mu_hi with None => num_add observed (Fin 2) | Some v => v end) hw
    = (Ok (Some s1), h1) ->
  set_mu _cdf _dnorm w (snd s1) h1 = (Ok tt, h2) ->
  call_G _cdf _dnorm _qnorm w observed alpha h2 = (Ok g, h3) ->
  num_gt g (Fin 0) = true ->
  _UMAU _cdf _dnorm _qnorm (S fuel) observed alpha tg mu_lo mu_hi tol h
    = (Raise NameError_mu_ho, h3).
Proof.
  intros Htg Hiv Hnew Hlow Hset HG Hpos.
  unfold _UMAU, bind at 1. unfold getattr_intervals, bind at 1, deref, lift.
  rewrite Htg, Hiv.
  unfold bind at 1. unfold bind at 1. rewrite Htg. unfold ret at 1.
  unfold bind at 1. rewrite Hnew.
  unfold bind at 1. rewrite Hlow.
  unfold bind at 1. unfold expand_high, bind at 1. rewrite Hset.
  rewrite (while_first_round_raises _ _ _ _ _ h3 h3 NameError_mu_ho);
    [reflexivity | now apply (mu_too_low_true _ _ _ g) | apply raise_bracket_raises].
Qed.

(** *** The store *)

Lemma fresh_None (h : heap) : h !! fresh (dom h) = None.
Proof. apply not_elem_of_dom, is_fresh. Qed.

Lemma fresh_ne (h : heap) (l : loc) (o : t) :
  h !! l = Some o -> fresh (dom h) <> l.
Proof. intros H E. rewrite <- E, fresh_None in H. discriminate. Qed.

Lemma new_eq (raw : list num) (mu sigma : num) (h : heap) :
  new _cdf _dnorm raw mu sigma h =
    match init raw mu sigma with
    | Ok o => (Ok (fresh (dom h)), <[fresh (dom h) := o]> h)
    | Raise e => (Raise e, h)
    end.
Proof. unfold new, bind, lift, alloc. now destruct (init raw mu sigma). Qed.

Lemma set_mu_eq (tg : loc) (mu : num) (h : heap) (o : t) :
  h !! tg = Some o ->
  set_mu _cdf _dnorm tg mu h =
    match _mu_or_sigma_changed _cdf _dnorm (with_mu o mu) with
    | Ok o' => (Ok tt, <[tg := o']> (<[tg := with_mu o mu]> h))
    | Raise e => (Raise e, <[tg := with_mu o mu]> h)
    end.
Proof.
  intros H. unfold set_mu, bind, deref, store, lift. rewrite H.
  now destruct (_mu_or_sigma_changed _ _ _).
Qed.

Lemma set_sigma_eq (tg : loc) (sigma : num) (h : heap) (o : t) :
  h !! tg = Some o ->
  set_sigma _cdf _dnorm tg sigma h =
    match _mu_or_sigma_changed _cdf _dnorm (with_sigma o sigma) with
    | Ok o' => (Ok tt, <[tg := o']> (<[tg := with_sigma o sigma]> h))
    | Raise e => (Raise e, <[tg := with_sigma o sigma]> h)
    end.
Proof.
  intros H. unfold set_sigma, bind, deref, store, lift. rewrite H.
  now destruct (_mu_or_sigma_changed _ _ _).
Qed.

Lemma set_mu_missing (tg : loc) (mu : num) (h : heap) :
  h !! tg = None -> set_mu _cdf _dnorm tg mu h = (Raise AttributeError, h).
Proof. intros H. unfold set_mu, bind, deref. now rewrite H. Qed.

(** assigning [tg.mu] touches the object [tg] only *)
Lemma set_mu_frame (tg l : loc) (mu : num) (h : heap) :
  l <> tg -> snd (set_mu _cdf _dnorm tg mu h) !! l = h !! l.
Proof.
  intros Hne. destruct (h !! tg) as [o|] eqn:E.
  - rewrite (set_mu_eq _ _ _ _ E).
    destruct (_mu_or_sigma_changed _ _ _); cbn [snd];
      now rewrite ?lookup_insert_ne by done.
  - now rewrite (set_mu_missing _ _ _ E).
Qed.

Lemma call_dG_heap (tg : loc) (X alpha : num) (h : heap) :
  snd (call_dG _cdf _dnorm _qnorm tg X alpha h) = h.
Proof.
  unfold call_dG, bind, deref, lift. now destruct (h !! tg).
Qed.

(** a loop over a list whose rounds touch the object [w] only *)
Lemma for_each_frame {A B} (f : A -> M B) (w : loc) (xs : list A) :
  (forall a h l, l <> w -> snd (f a h) !! l = h !! l) ->
  forall (h : heap) l, l <> w -> snd (for_each f xs h) !! l = h !! l.
Proof.
  intros Hf. induction xs as [|a xs IH]; intros h l Hl; [reflexivity|].
  cbn [for_each]. unfold bind at 1.
  pose proof (Hf a h l Hl) as Ha.
  destruct (f a h) as [[b|e] h']; cbn [snd] in *; [|exact Ha].
  unfold bind at 1. pose proof (IH h' l Hl) as Hxs.
  destruct (for_each f xs h') as [[bs|e] h'']; unfold ret; cbn [snd] in *;
    congruence.
Qed.

Lemma round_G_frame (w l : loc) (alpha : num) (lm : num * num) (h : heap) :
  l <> w ->
  snd ((set_mu _cdf _dnorm w (snd lm) ;;;
        call_G _cdf _dnorm _qnorm w (fst lm) alpha)%M h) !! l = h !! l.
Proof.
  intros Hl. unfold bind at 1.
  pose proof (set_mu_frame w l (snd lm) h Hl) as Hs.
  destruct (set_mu _ _ _ _ _) as [[[]|e] h']; cbn [snd] in *; [|exact Hs].
  now rewrite call_G_heap.
Qed.

Lemma round_dG_frame (w l : loc) (alpha : num) (lm : num * num) (h : heap) :
  l <> w ->
  snd ((set_mu _cdf _dnorm w (snd lm) ;;;
        call_dG _cdf _dnorm _qnorm w (fst lm) alpha)%M h) !! l = h !! l.
Proof.
  intros Hl. unfold bind at 1.
  pose proof (set_mu_frame w l (snd lm) h Hl) as Hs.
  destruct (set_mu _ _ _ _ _) as [[[]|e] h']; cbn [snd] in *; [|exact Hs].
  now rewrite call_dG_heap.
Qed.

Lemma length_sort_insert (x : num) (l : list num) :
  length (sort_insert x l) = S (length l).
Proof.
  induction l as [|y l IH]; [reflexivity|].
  cbn. destruct (sort_le x y); cbn; congruence.
Qed.

Lemma length_np_sort (l : list num) : length (np_sort l) = length l.
Proof.
  induction l as [|x l IH]; [reflexivity|].
  change (np_sort (x :: l)) with (sort_insert x (np_sort l)).
  now rewrite length_sort_insert, IH.
Qed.

Lemma reshape2_even (n : nat) (l : list num) :
  length l = (2 * n)%nat -> exists ivs, reshape2 l = Ok ivs /\ length ivs = n.
Proof.
  revert l. induction n as [|n IH]; intros l Hl.
  - destruct l; [|discriminate]. now exists [].
  - destruct l as [|a [|b l]]; cbn in Hl; try lia.
    destruct (IH l) as (ivs & E & Hn); [lia|].
    exists ((a, b) :: ivs). cbn. rewrite E. split; [reflexivity|]. cbn; lia.
Qed.

Lemma length_flatten2 (ivs : list (num * num)) :
  length (flatten2 ivs) = (2 * length ivs)%nat.
Proof.
  induction ivs as [|ab ivs IH]; [reflexivity|].
  unfold flatten2 in *. cbn [flat_map]. rewrite length_app, IH. cbn [length]. lia.
Qed.

(** the constructor accepts every list of pairs *)
Lemma init_pairs_Ok (ivs : list (num * num)) (mu sigma : num) :
  exists ivs', reshape2 (np_sort (flatten2 ivs)) = Ok ivs' /\
    init (flatten2 ivs) mu sigma =
      Ok (mk (flatten2 (filter nonzero_width ivs')) mu sigma
             (map (mass _cdf mu sigma) (filter nonzero_width ivs'))
             (map (boundary_density _dnorm mu sigma) (filter nonzero_width ivs'))
             None).
Proof.
  destruct (reshape2_even (length ivs) (np_sort (flatten2 ivs))) as (ivs' & E & _).
  { now rewrite length_np_sort, length_flatten2. }
  exists ivs'. split; [exact E|]. now apply init_Ok.
Qed.

(** *** C7 *)

Lemma G_unfold (left_endpoints mus : list num) (alpha : num) (tg : loc)
    (h : heap) (o o0 : t) ivs :
  h !! tg = Some o -> intervals o = Ok ivs ->
  init (flatten2 ivs) (Fin 0) (Fin 1) = Ok o0 ->
  batch_G _cdf _dnorm _qnorm left_endpoints mus alpha tg h =
    for_each (fun lm => set_mu _cdf _dnorm (fresh (dom h)) (snd lm) ;;;
                        call_G _cdf _dnorm _qnorm (fresh (dom h)) (fst lm) alpha)%M
             (combine left_endpoints mus) (<[fresh (dom h) := o0]> h).
Proof.
  intros Htg Hiv Hinit. unfold batch_G, bind at 1.
  unfold getattr_intervals, bind at 1, deref, lift. rewrite Htg, Hiv.
  unfold bind at 1. now rewrite new_eq, Hinit.
Qed.

Lemma dG_unfold (left_endpoints mus : list num) (alpha : num) (tg : loc)
    (h : heap) (o o0 : t) ivs :
  h !! tg = Some o -> intervals o = Ok ivs ->
  init (flatten2 ivs) (Fin 0) (Fin 1) = Ok o0 ->
  batch_dG _cdf _dnorm _qnorm left_endpoints mus alpha tg h =
    for_each (fun lm => set_mu _cdf _dnorm (fresh (dom h)) (snd lm) ;;;
                        call_dG _cdf _dnorm _qnorm (fresh (dom h)) (fst lm) alpha)%M
             (combine left_endpoints mus) (<[fresh (dom h) := o0]> h).
Proof.
  intros Htg Hiv Hinit. unfold batch_dG, bind at 1.
  unfold getattr_intervals, bind at 1, deref, lift. rewrite Htg, Hiv.
  unfold bind at 1. now rewrite new_eq, Hinit.
Qed.

Lemma G_frame (left_endpoints mus : list num) (alpha : num) (tg : loc)
    (h : heap) (l : loc) (o' : t) :
  h !! l = Some o' ->
  snd (batch_G _cdf _dnorm _qnorm left_endpoints mus alpha tg h) !! l = Some o'.
Proof.
  intros Hl. unfold batch_G, bind at 1.
  unfold getattr_intervals, bind at 1, deref, lift.
  destruct (h !! tg) as [o|]; cbn [snd]; [|exact Hl].
  destruct (intervals o) as [ivs|e]; cbn [snd]; [|exact Hl].
  unfold bind at 1. rewrite new_eq.
  destruct (init _ _ _) as [o0|e]; cbn [snd]; [|exact Hl].
  rewrite (for_each_frame _ (fresh (dom h))).
  - rewrite lookup_insert_ne; [exact Hl|]. now apply (fresh_ne h l o').
  - intros a h' l' Hl'. now apply round_G_frame.
  - intros E. now apply (fresh_ne h l o').
Qed.

Lemma dG_frame (left_endpoints mus : list num) (alpha : num) (tg : loc)
    (h : heap) (l : loc) (o' : t) :
  h !! l = Some o' ->
  snd (batch_dG _cdf _dnorm _qnorm left_endpoints mus alpha tg h) !! l = Some o'.
Proof.
  intros Hl. unfold batch_dG, bind at 1.
  unfold getattr_intervals, bind at 1, deref, lift.
  destruct (h !! tg) as [o|]; cbn [snd]; [|exact Hl].
  destruct (intervals o) as [ivs|e]; cbn [snd]; [|exact Hl].
  unfold bind at 1. rewrite new_eq.
  destruct (init _ _ _) as [o0|e]; cbn [snd]; [|exact Hl].
  rewrite (for_each_frame _ (fresh (dom h))).
  - rewrite lookup_insert_ne; [exact Hl|]. now apply (fresh_ne h l o').
  - intros a h' l' Hl'. now apply round_dG_frame.
  - intros E. now apply (fresh_ne h l o').
Qed.

(** C7: the batch functions [G] and [dG] leave the template as it was,
    with its [mu], its [sigma] and its interval set (and so every object
    the store held before the call); the rounds run on a newly allocated
    object, distinct from the template. *)
Theorem batch_leaves_template (left_endpoints mus : list num) (alpha : num)
    (tg : loc) (h : heap) (o : t) :
  h !! tg = Some o ->
  (forall l o', h !! l = Some o' ->
     snd (batch_G _cdf _dnorm _qnorm left_endpoints mus alpha tg h) !! l = Some o' /\
     snd (batch_dG _cdf _dnorm _qnorm left_endpoints mus alpha tg h) !! l = Some o') /\
  (forall ivs, intervals o = Ok ivs ->
     exists w o0,
       w <> tg /\ h !! w = None /\
       init (flatten2 ivs) (Fin 0) (Fin 1) = Ok o0 /\
       batch_G _cdf _dnorm _qnorm left_endpoints mus alpha tg h =
         for_each (fun lm => set_mu _cdf _dnorm w (snd lm) ;;;
                             call_G _cdf _dnorm _qnorm w (fst lm) alpha)%M
                  (combine left_endpoints mus) (<[w := o0]> h) /\
       batch_dG _cdf _dnorm _qnorm left_endpoints mus alpha tg h =
         for_each (fun lm => set_mu _cdf _dnorm w (snd lm) ;;;
                             call_dG _cdf _dnorm _qnorm w (fst lm) alpha)%M
                  (combine left_endpoints mus) (<[w := o0]> h)).
Proof.
  intros Htg. split.
  - intros l o' Hl. split; [now apply G_frame | now apply dG_frame].
  - intros ivs Hiv.
    destruct (init_pairs_Ok ivs (Fin 0) (Fin 1)) as (ivs' & _ & Hinit).
    exists (fresh (dom h)). eexists. split; [now apply (fresh_ne h tg o)|].
    split; [apply fresh_None|]. split; [exact Hinit|].
    split; [now apply (G_unfold _ _ _ _ _ o _ ivs)
           | now apply (dG_unfold _ _ _ _ _ o _ ivs)].
Qed.

(** *** C9 *)

Lemma result_map_ext {A B} (f g : A -> result B) (l : list A) :
  (forall a, f a = g a) -> result_map f l = result_map g l.
Proof.
  intros H. induction l as [|a l IH]; [reflexivity|].
  cbn. now rewrite H, IH.
Qed.

(** assigning [mu] on a constructed object rebuilds both caches from its
    intervals *)
Lemma set_mu_rebuilds (w : loc) (I : list (num * num)) (m mu sigma : num)
    (p : list num) (d : list (num * num)) (h : heap) :
  h !! w = Some (mk (flatten2 I) m sigma p d None) ->
  exists h',
    set_mu _cdf _dnorm w mu h = (Ok tt, h') /\
    h' !! w = Some (mk (flatten2 I) mu sigma
                       (map (mass _cdf mu sigma) I)
                       (map (boundary_density _dnorm mu sigma) I) None).
Proof.
  intros Hw. rewrite (set_mu_eq _ _ _ _ Hw).
  erewrite mu_or_sigma_changed_Ok by apply reshape2_flatten2.
  eexists. split; [reflexivity|]. now rewrite lookup_insert_eq.
Qed.

Lemma rounds_G (w : loc) (I : list (num * num)) (alpha : num)
    (xs : list (num * num)) :
  forall (h : heap) (m : num) p d,
    h !! w = Some (mk (flatten2 I) m (Fin 1) p d None) ->
    fst (for_each (fun lm => set_mu _cdf _dnorm w (snd lm) ;;;
                             call_G _cdf _dnorm _qnorm w (fst lm) alpha)%M xs h)
    = result_map
        (fun lm => G_method (mk (flatten2 I) (snd lm) (Fin 1)
                               (map (mass _cdf (snd lm) (Fin 1)) I)
                               (map (boundary_density _dnorm (snd lm) (Fin 1)) I)
                               None)
                            (fst lm) alpha) xs.
Proof.
  induction xs as [|lm xs IH]; intros h m p d Hw; [reflexivity|].
  destruct (set_mu_rebuilds w I m (snd lm) (Fin 1) p d h Hw) as (h' & Hs & Hw').
  cbn [for_each result_map]. unfold bind at 1. unfold bind at 1. rewrite Hs.
  unfold call_G at 1, bind at 1, deref, lift. rewrite Hw'.
  destruct (G_method _ _ _) as [b|e]; [|reflexivity].
  unfold bind at 1. rewrite <- (IH h' _ _ _ Hw').
  now destruct (for_each _ xs h') as [[bs|e] h''].
Qed.

Lemma rounds_dG (w : loc) (I : list (num * num)) (alpha : num)
    (xs : list (num * num)) :
  forall (h : heap) (m : num) p d,
    h !! w = Some (mk (flatten2 I) m (Fin 1) p d None) ->
    fst (for_each (fun lm => set_mu _cdf _dnorm w (snd lm) ;;;
                             call_dG _cdf _dnorm _qnorm w (fst lm) alpha)%M xs h)
    = result_map
        (fun lm => dG_method (mk (flatten2 I) (snd lm) (Fin 1)
                                (map (mass _cdf (snd lm) (Fin 1)) I)
                                (map (boundary_density _dnorm (snd lm) (Fin 1)) I)
                                None)
                             (fst lm) alpha) xs.
Proof.
  induction xs as [|lm xs IH]; intros h m p d Hw; [reflexivity|].
  destruct (set_mu_rebuilds w I m (snd lm) (Fin 1) p d h Hw) as (h' & Hs & Hw').
  cbn [for_each result_map]. unfold bind at 1. unfold bind at 1. rewrite Hs.
  unfold call_dG at 1, bind at 1, deref, lift. rewrite Hw'.
  destruct (dG_method _ _ _) as [b|e]; [|reflexivity].
  unfold bind at 1. rewrite <- (IH h' _ _ _ Hw').
  now destruct (for_each _ xs h') as [[bs|e] h''].
Qed.

(** C9: the batch functions build their working copy from the template's
    intervals alone, with the default [sigma = 1]: whatever the template's
    [sigma] (and [mu]), each round evaluates the method on the distribution
    [truncated_gaussian(tg.intervals, mu=mu_i, sigma=1)]. *)
Theorem batch_uses_sigma_1 (left_endpoints mus : list num) (alpha : num)
    (tg : loc) (h : heap) (o : t) ivs :
  h !! tg = Some o -> intervals o = Ok ivs ->
  fst (batch_G _cdf _dnorm _qnorm left_endpoints mus alpha tg h)
    = result_map (fun lm => o' <- init (flatten2 ivs) (snd lm) (Fin 1) ;;
                            G_method o' (fst lm) alpha)%result
                 (combine left_endpoints mus) /\
  fst (batch_dG _cdf _dnorm _qnorm left_endpoints mus alpha tg h)
    = result_map (fun lm => o' <- init (flatten2 ivs) (snd lm) (Fin 1) ;;
                            dG_method o' (fst lm) alpha)%result
                 (combine left_endpoints mus).
Proof.
  intros Htg Hiv.
  destruct (init_pairs_Ok ivs (Fin 0) (Fin 1)) as (ivs' & E & Hinit).
  assert (Hmu : forall mu, init (flatten2 ivs) mu (Fin 1) =
            Ok (mk (flatten2 (filter nonzero_width ivs')) mu (Fin 1)
                   (map (mass _cdf mu (Fin 1)) (filter nonzero_width ivs'))
                   (map (boundary_density _dnorm mu (Fin 1)) (filter nonzero_width ivs'))
                   None))
    by (intros mu; now apply init_Ok).
  split.
  - rewrite (G_unfold _ _ _ _ _ o _ ivs Htg Hiv Hinit).
    erewrite rounds_G by apply lookup_insert_eq.
    apply result_map_ext. intros lm. now rewrite Hmu.
  - rewrite (dG_unfold _ _ _ _ _ o _ ivs Htg Hiv Hinit).
    erewrite rounds_dG by apply lookup_insert_eq.
    apply result_map_ext. intros lm. now rewrite Hmu.
Qed.

(** *** C10 *)

Lemma negated_cached (tg n : loc) (h : heap) (o : t) :
  h !! tg = Some o -> _negated o = Some n ->
  negated _cdf _dnorm tg h = (Ok n, h).
Proof.
  intros Htg Hn. unfold negated, bind at 1, deref. now rewrite Htg, Hn.
Qed.

Lemma negated_first (tg : loc) (h : heap) (o : t) :
  h !! tg = Some o -> _negated o = None ->
  negated _cdf _dnorm tg h =
    match init (map num_neg (rev (_cutoff_array o))) (_mu o) (_sigma o) with
    | Ok on => (Ok (fresh (dom h)),
                <[tg := with_negated o (fresh (dom h))]>
                  (<[fresh (dom h) := on]> h))
    | Raise e => (Raise e, h)
    end.
Proof.
  intros Htg Hn. unfold negated, bind at 1, deref. rewrite Htg, Hn.
  unfold bind at 1. rewrite new_eq.
  destruct (init _ _ _) as [on|e]; [|reflexivity].
  unfold bind at 1.
  rewrite lookup_insert_ne by now apply (fresh_ne h tg o).
  now rewrite Htg.
Qed.

Lemma mu_or_sigma_changed_fields (self o' : t) :
  _mu_or_sigma_changed _cdf _dnorm self = Ok o' ->
  _cutoff_array o' = _cutoff_array self /\ _mu o' = _mu self /\
  _sigma o' = _sigma self /\ _negated o' = _negated self.
Proof.
  unfold _mu_or_sigma_changed.
  destruct (intervals self); cbn [rbind]; [|discriminate].
  now intros [= <-].
Qed.

Lemma set_mu_tg (tg : loc) (v : num) (h : heap) (o : t) :
  h !! tg = Some o ->
  exists o', snd (set_mu _cdf _dnorm tg v h) !! tg = Some o' /\
             _mu o' = v /\ _sigma o' = _sigma o /\ _negated o' = _negated o.
Proof.
  intros Htg. rewrite (set_mu_eq _ _ _ _ Htg).
  destruct (_mu_or_sigma_changed _ _ _) as [o'|e] eqn:E; cbn [snd].
  - exists o'. rewrite lookup_insert_eq.
    apply mu_or_sigma_changed_fields in E as (_ & ? & ? & ?). now repeat split.
  - exists (with_mu o v). now rewrite lookup_insert_eq.
Qed.

Lemma set_sigma_tg (tg : loc) (v : num) (h : heap) (o : t) :
  h !! tg = Some o ->
  exists o', snd (set_sigma _cdf _dnorm tg v h) !! tg = Some o' /\
             _mu o' = _mu o /\ _sigma o' = v /\ _negated o' = _negated o.
Proof.
  intros Htg. rewrite (set_sigma_eq _ _ _ _ Htg).
  destruct (_mu_or_sigma_changed _ _ _) as [o'|e] eqn:E; cbn [snd].
  - exists o'. rewrite lookup_insert_eq.
    apply mu_or_sigma_changed_fields in E as (_ & ? & ? & ?). now repeat split.
  - exists (with_sigma o v). now rewrite lookup_insert_eq.
Qed.

Lemma set_sigma_frame (tg l : loc) (sigma : num) (h : heap) :
  l <> tg -> snd (set_sigma _cdf _dnorm tg sigma h) !! l = h !! l.
Proof.
  intros Hne. destruct (h !! tg) as [o|] eqn:E.
  - rewrite (set_sigma_eq _ _ _ _ E).
    destruct (_mu_or_sigma_changed _ _ _); cbn [snd];
      now rewrite ?lookup_insert_ne by done.
  - unfold set_sigma, bind, deref. now rewrite E.
Qed.

(** C10: the first access to [negated] builds the reflected distribution
    with the [mu] and [sigma] current at that moment and caches it; after
    [set_mu] or [set_sigma] on the original, [negated] still returns that
    same object, which still carries the old parameter values, while the
    original carries the new one. *)
Theorem negated_cache_is_stale (tg n : loc) (h h1 : heap) (o : t) :
  h !! tg = Some o -> _negated o = None ->
  negated _cdf _dnorm tg h = (Ok n, h1) ->
  exists on,
    n <> tg /\ h1 !! n = Some on /\ _mu on = _mu o /\ _sigma on = _sigma o /\
    forall v,
      (let h2 := snd (set_mu _cdf _dnorm tg v h1) in
       negated _cdf _dnorm tg h2 = (Ok n, h2) /\ h2 !! n = Some on /\
       exists o2, h2 !! tg = Some o2 /\ _mu o2 = v) /\
      (let h2 := snd (set_sigma _cdf _dnorm tg v h1) in
       negated _cdf _dnorm tg h2 = (Ok n, h2) /\ h2 !! n = Some on /\
       exists o2, h2 !! tg = Some o2 /\ _sigma o2 = v).
Proof.
  intros Htg Hnone Hneg. rewrite (negated_first _ _ _ Htg Hnone) in Hneg.
  destruct (init _ _ _) as [on|e] eqn:Einit; [|discriminate].
  injection Hneg as <- <-.
  pose proof (fresh_ne h tg o Htg) as Hne.
  apply init_intervals in Einit as (ivs & _ & _ & Hmu & Hsigma & _).
  exists on. split; [exact Hne|].
  assert (Hn : (<[tg := with_negated o (fresh (dom h))]>
                  (<[fresh (dom h) := on]> h)) !! fresh (dom h) = Some on).
  { rewrite lookup_insert_ne by done. apply lookup_insert_eq. }
  split; [exact Hn|]. split; [exact Hmu|]. split; [exact Hsigma|].
  assert (Ht : (<[tg := with_negated o (fresh (dom h))]>
                  (<[fresh (dom h) := on]> h)) !! tg
               = Some (with_negated o (fresh (dom h))))
    by apply lookup_insert_eq.
  intros v. split; cbv zeta.
  - destruct (set_mu_tg tg v _ _ Ht) as (o2 & H2 & Hv & _ & Hcache).
    split; [now apply (negated_cached _ _ _ o2)|].
    split; [now rewrite set_mu_frame|]. eauto.
  - destruct (set_sigma_tg tg v _ _ Ht) as (o2 & H2 & _ & Hv & Hcache).
    split; [now apply (negated_cached _ _ _ o2)|].
    split; [now rewrite set_sigma_frame|]. eauto.
Qed.

(** *** C2 *)

(** what [CDF] computes: the partial mass is taken under the Gaussian
    with [sigma = 1], whatever the distribution's [sigma] *)
Lemma CDF_code (self : t) (x : num) (k : nat) ivs ak :
  find_interval self x = Ok k -> intervals self = Ok ivs ->
  ivs !! k = Some ak ->
  CDF self x =
    Ok (num_div (num_add (num_sum (take k (P self)))
                         (mass _cdf (_mu self) (Fin 1) (fst ak, x)))
                (num_sum (P self))).
Proof.
  intros Hk Hiv Hak. unfold truncated_gaussian.CDF, index, mass.
  rewrite Hk, Hiv. cbn [rbind]. rewrite Hak. cbn [rbind fst snd].
  now rewrite !num_div_1.
Qed.

(** on a constructed distribution with [sigma = 1] the code and the data
    model agree *)
Lemma CDF_sigma_1 (raw : list num) (mu : num) (o : t) (x : num) :
  init raw mu (Fin 1) = Ok o -> CDF o x = CDF_spec _cdf o x.
Proof.
  intros Hinit.
  apply init_intervals in Hinit as (ivs & _ & Hiv & Hmu & Hsigma & _ & HP).
  unfold CDF_spec. destruct (find_interval o x) as [k|e] eqn:Hk.
  - rewrite Hiv. cbn [rbind]. unfold index at 1.
    destruct (filter nonzero_width ivs !! k) as [ak|] eqn:Hak; cbn [rbind].
    + rewrite (CDF_code o x k _ ak Hk Hiv Hak).
      now rewrite HP, Hmu, Hsigma, fmap_take.
    + unfold truncated_gaussian.CDF, index. rewrite Hk, Hiv. cbn [rbind].
      now rewrite Hak.
  - unfold truncated_gaussian.CDF. now rewrite Hk.
Qed.

(** scenario 1 of the specification *)
Lemma CDF_two_tails :
  exists o, init [NInf; Fin (-1); Fin 1; PInf] (Fin 0) (Fin 1) = Ok o /\
    CDF o (Fin 2) =
      Ok (num_div (num_add (_cdf NInf (Fin (-1))) (_cdf (Fin 1) (Fin 2)))
                  (num_add (_cdf NInf (Fin (-1))) (_cdf (Fin 1) PInf))).
Proof.
  eexists. split; [apply init_Ok; reflexivity|].
  rewrite <- (num_add_0_l (_cdf NInf (Fin (-1)))). reflexivity.
Qed.

(** C2, as the code has it: on [truncated_gaussian([(0,1)], mu=0, sigma=2)]
    the mass of the interval is taken under the Gaussian with [sigma = 2],
    as the data model says, but [CDF(0.9)] adds the partial mass of
    [[0, 0.9)] under the Gaussian with [sigma = 1]. *)
Theorem CDF_partial_mass_ignores_sigma :
  exists o, init [Fin 0; Fin 1] (Fin 0) (Fin 2) = Ok o /\
    CDF o (Fin (9 # 10)) =
      Ok (num_div (num_add (Fin 0)
                     (mass _cdf (Fin 0) (Fin 1) (Fin 0, Fin (9 # 10))))
                  (num_sum [mass _cdf (Fin 0) (Fin 2) (Fin 0, Fin 1)])) /\
    CDF_spec _cdf o (Fin (9 # 10)) =
      Ok (num_div (num_add (Fin 0)
                     (mass _cdf (Fin 0) (Fin 2) (Fin 0, Fin (9 # 10))))
                  (num_sum [mass _cdf (Fin 0) (Fin 2) (Fin 0, Fin 1)])).
Proof.
  eexists. split; [apply init_Ok; reflexivity|].
  split; reflexivity.
Qed.

(** *** C8 *)

Lemma Qlt_bool_iff (p q : Q) : Qlt_bool p q = true <-> p < q.
Proof.
  unfold Qlt_bool. rewrite negb_true_iff, <- not_true_iff_false, Qle_bool_iff.
  split; [apply Qnot_le_lt | apply Qlt_not_le].
Qed.

(** C8, as the code has it: on [truncated_gaussian([(0,1)], mu=0, sigma=2)]
    the point [0.9] lies strictly inside the interval, yet
    [quantile(CDF(0.9))] raises an IndexError.  [p] is the mass of the
    interval (under [sigma = 2]) and [c] the partial mass that [CDF] adds
    (under [sigma = 1]); for the Gaussian [p] is about 0.19 and [c] about
    0.32, so [CDF(0.9) = c/p] exceeds 1 and [quantile] looks for an interval
    past the last one. *)
Theorem quantile_CDF_IndexError (p c : Q) :
  mass _cdf (Fin 0) (Fin 2) (Fin 0, Fin 1) = Fin p ->
  mass _cdf (Fin 0) (Fin 1) (Fin 0, Fin (9 # 10)) = Fin c ->
  0 < p -> p < c ->
  exists o, init [Fin 0; Fin 1] (Fin 0) (Fin 2) = Ok o /\
    intervals o = Ok [(Fin 0, Fin 1)] /\
    num_lt (Fin 0) (Fin (9 # 10)) = true /\
    num_lt (Fin (9 # 10)) (Fin 1) = true /\
    CDF o (Fin (9 # 10)) = Ok (Fin (c / p)) /\
    (q <- CDF o (Fin (9 # 10)) ;; quantile o q)%result = Raise IndexError.
Proof.
  intros Hp Hc Hpos Hlt.
  assert (Hq : num_div (Fin c) (Fin p) = Fin (c / p)).
  { cbn. destruct (Qeq_bool p 0) eqn:E; [|reflexivity].
    apply Qeq_bool_eq in E. lra. }
  eexists. split; [apply init_Ok; reflexivity|]. split; [reflexivity|].
  split; [reflexivity|]. split; [reflexivity|].
  erewrite CDF_code; [| reflexivity | reflexivity | reflexivity].
  cbn [rbind P _mu].
  change (filter _ [(Fin 0, Fin 1)]) with [(Fin 0, Fin 1)].
  cbn [map take fst]. rewrite Hp, Hc.
  unfold num_sum. cbn [fold_left]. rewrite !num_add_0_l, Hq.
  split; [reflexivity|].
  unfold truncated_gaussian.quantile. cbn [P _mu].
  unfold num_sum, cumsum. cbn [fold_left cumsum_from]. rewrite !num_add_0_l.
  cbn [num_mul map num_lt].
  assert (Heq : p * (c / p) == c) by (field; lra).
  assert (H1 : Qlt_bool 0 (p * (c / p)) = true)
    by (apply Qlt_bool_iff; rewrite Heq; lra).
  assert (H2 : Qlt_bool p (p * (c / p)) = true)
    by (apply Qlt_bool_iff; rewrite Heq; lra).
  rewrite H1, H2. reflexivity.
Qed.

(** *** C6 *)

(** C6, as the code has it: the difference of two equal infinities is
    NaN, which passes the test [D != 0]; the degenerate interval
    [(-inf, -inf)] is kept, and its width is not positive. *)
Theorem init_keeps_infinite_degenerate (mu sigma : num) :
  exists o,
    init (flatten2 [(NInf, NInf); (Fin 0, Fin 1)]) mu sigma = Ok o /\
    intervals o = Ok [(NInf, NInf); (Fin 0, Fin 1)] /\
    num_sub NInf NInf = NaN /\
    nonzero_width (NInf, NInf) = true /\
    num_lt NInf NInf = false /\
    num_gt (num_sub NInf NInf) (Fin 0) = false.
Proof.
  eexists. split; [apply init_Ok; reflexivity|]. now repeat split.
Qed.

(** so does the factory [twosided] at an infinite threshold *)
Lemma twosided_infinite (mu sigma : num) :
  exists o, twosided _cdf _dnorm PInf mu sigma = Ok o /\
            intervals o = Ok [(NInf, NInf); (PInf, PInf)].
Proof. eexists. split; [apply init_Ok; reflexivity|]. reflexivity. Qed.

(** *** Order on numbers *)

Lemma num_le_trans (x y z : num) :
  num_le x y = true -> num_le y z = true -> num_le x z = true.
Proof.
  destruct x, y, z; cbn; try easy.
  rewrite !Qle_bool_iff. apply Qle_trans.
Qed.

Lemma num_le_total (x y : num) :
  is_nan x = false -> is_nan y = false ->
  num_le x y = false -> num_le y x = true.
Proof.
  destruct x, y; cbn; try easy. intros _ _ H.
  apply Qle_bool_iff. apply not_true_iff_false in H.
  rewrite Qle_bool_iff in H. apply Qlt_le_weak. now apply Qnot_le_lt.
Qed.

Lemma num_lt_le_trans (x y z : num) :
  num_lt x y = true -> num_le y z = true -> num_lt x z = true.
Proof.
  destruct x, y, z; cbn; try easy.
  rewrite !Qlt_bool_iff, Qle_bool_iff. apply Qlt_le_trans.
Qed.

Lemma sort_le_num_le (x y : num) :
  is_nan y = false -> sort_le x y = num_le x y.
Proof. now destruct y. Qed.

#[local] Instance Rle_trans : Transitive Rle.
Proof. intros x y z. apply num_le_trans. Qed.

(** a pair of ordered cut points that passes the test [D != 0] and is not
    a repeated infinity has positive width *)
Lemma nonzero_width_lt (a b : num) :
  num_le a b = true -> nonzero_width (a, b) = true ->
  (is_ninf a && is_ninf b = false) -> (is_pinf a && is_pinf b = false) ->
  num_lt a b = true.
Proof.
  destruct a as [| |p|], b as [| |q|]; cbn; try easy.
  unfold nonzero_width, num_ne. cbn.
  rewrite Qle_bool_iff, negb_true_iff, Qlt_bool_iff.
  intros Hle Hne _ _. apply Qeq_bool_neq in Hne.
  destruct (Qlt_le_dec p q) as [Hlt|Hge]; [exact Hlt|].
  exfalso. apply Hne. lra.
Qed.

(** *** [np.sort] *)

Lemma sort_insert_Permutation (x : num) (l : list num) :
  sort_insert x l ≡ₚ x :: l.
Proof.
  induction l as [|y l IH]; [reflexivity|].
  cbn. destruct (sort_le x y); [reflexivity|].
  rewrite IH. apply Permutation_swap.
Qed.

Lemma np_sort_Permutation (l : list num) : np_sort l ≡ₚ l.
Proof.
  induction l as [|x l IH]; [reflexivity|].
  change (np_sort (x :: l)) with (sort_insert x (np_sort l)).
  now rewrite sort_insert_Permutation, IH.
Qed.

Lemma sort_insert_sorted (x : num) (l : list num) :
  is_nan x = false -> Forall (fun y => is_nan y = false) l ->
  StronglySorted Rle l -> StronglySorted Rle (sort_insert x l).
Proof.
  intros Hx. induction l as [|y l IH]; intros Hl Hs.
  - repeat constructor.
  - apply Forall_cons in Hl as [Hy Hl].
    apply StronglySorted_inv in Hs as [Hs Hyl].
    cbn. rewrite (sort_le_num_le x y Hy).
    destruct (num_le x y) eqn:E.
    + constructor; [now constructor|].
      constructor; [exact E|].
      eapply Forall_impl; [exact Hyl|]. intros z Hz. now transitivity y.
    + constructor; [now apply IH|].
      rewrite sort_insert_Permutation. constructor; [|exact Hyl].
      now apply num_le_total.
Qed.

Lemma np_sort_sorted (l : list num) :
  Forall (fun y => is_nan y = false) l -> StronglySorted Rle (np_sort l).
Proof.
  induction l as [|x l IH]; intros Hl; [constructor|].
  apply Forall_cons in Hl as [Hx Hl].
  change (np_sort (x :: l)) with (sort_insert x (np_sort l)).
  apply sort_insert_sorted; [exact Hx| |now apply IH].
  now rewrite np_sort_Permutation.
Qed.

Lemma StronglySorted_lookup {A} (R : relation A) (l : list A) (i j : nat) x y :
  StronglySorted R l -> (i < j)%nat ->
  l !! i = Some x -> l !! j = Some y -> R x y.
Proof.
  intros Hs. revert i j. induction Hs as [|z l Hs IH Hz]; intros i j Hij Hi Hj.
  - discriminate.
  - destruct j as [|j]; [lia|]. cbn in Hj. destruct i as [|i]; cbn in Hi.
    + injection Hi as <-. rewrite Forall_forall in Hz. apply Hz.
      now apply list_elem_of_lookup_2 in Hj.
    + apply (IH i j); [lia|done..].
Qed.

Lemma StronglySorted_filter {A} (R : relation A) (f : A -> bool) (l : list A) :
  StronglySorted R l -> StronglySorted R (filter f l).
Proof.
  induction 1 as [|z l Hs IH Hz]; [constructor|].
  rewrite filter_cons. destruct (decide _); [|exact IH].
  constructor; [exact IH|].
  rewrite Forall_forall in *. intros y Hy.
  apply list_elem_of_filter in Hy as [_ Hy]. now apply Hz.
Qed.

(** *** Intervals from sorted cut points *)

Lemma reshape2_inv (ivs : list (num * num)) :
  forall l, reshape2 l = Ok ivs -> l = flatten2 ivs.
Proof.
  induction ivs as [|[a b] ivs IH]; intros [|x [|y l]] H; cbn in H;
    try discriminate; try reflexivity.
  - destruct (reshape2 l); discriminate.
  - destruct (reshape2 l) as [r|e] eqn:E; [|discriminate].
    injection H as -> -> ->. cbn. f_equal. f_equal. now apply IH.
Qed.

Lemma flatten2_sorted (ivs : list (num * num)) :
  StronglySorted Rle (flatten2 ivs) ->
  Forall (fun ab => Rle (fst ab) (snd ab)) ivs /\
  StronglySorted (fun i j => Rle (snd i) (fst j)) ivs.
Proof.
  induction ivs as [|[a b] ivs IH]; intros Hs; [split; constructor|].
  change (flatten2 ((a, b) :: ivs)) with (a :: b :: flatten2 ivs) in Hs.
  apply StronglySorted_inv in Hs as [Hs Ha].
  apply StronglySorted_inv in Hs as [Hs Hb].
  destruct (IH Hs) as [IH1 IH2]. split.
  - constructor; [|exact IH1]. now apply Forall_cons in Ha as [Ha _].
  - constructor; [exact IH2|].
    rewrite Forall_forall. intros [a' b'] Hin.
    rewrite Forall_forall in Hb. apply Hb.
    unfold flatten2. apply list_elem_of_In, in_flat_map.
    exists (a', b'). split; [now apply list_elem_of_In | now left].
Qed.

Lemma length_filter_cons_le {A} (f : A -> bool) (x : A) (l : list A) :
  (length (filter f l) <= length (filter f (x :: l)))%nat.
Proof. rewrite filter_cons. destruct (decide _); cbn; lia. Qed.

(** a repeated infinity among the intervals shows in the cut points *)
Lemma repeated_infinity (f : num -> bool) (ivs : list (num * num)) a b :
  (a, b) ∈ ivs -> f a = true -> f b = true ->
  (2 <= length (filter f (flatten2 ivs)))%nat.
Proof.
  intros Hin Ha Hb. induction ivs as [|[a' b'] ivs IH]; [inversion Hin|].
  change (flatten2 ((a', b') :: ivs)) with (a' :: b' :: flatten2 ivs).
  apply elem_of_cons in Hin as [[= <- <-]|Hin].
  - rewrite filter_cons.
    destruct (decide _) as [_|n]; [|rewrite Ha in n; now destruct n].
    rewrite filter_cons.
    destruct (decide _) as [_|n]; [|rewrite Hb in n; now destruct n].
    cbn. lia.
  - pose proof (length_filter_cons_le f a' (b' :: flatten2 ivs)).
    pose proof (length_filter_cons_le f b' (flatten2 ivs)).
    specialize (IH Hin). lia.
Qed.

Lemma tame_sorted (raw : list num) :
  tame raw ->
  StronglySorted Rle (np_sort raw) /\
  (length (filter is_ninf (np_sort raw)) <= 1)%nat /\
  (length (filter is_pinf (np_sort raw)) <= 1)%nat.
Proof.
  intros (Hnan & Hn & Hp). split; [now apply np_sort_sorted|].
  now rewrite !np_sort_Permutation.
Qed.

(** The invariant of the constructor on tame cut points: every stored
    interval has [a < b]; of two stored intervals the earlier one ends
    before the later one starts, so they are sorted by lower bound and
    disjoint. *)
Theorem init_invariant (raw : list num) (mu sigma : num) (o : t) :
  tame raw -> init raw mu sigma = Ok o ->
  exists ivs, intervals o = Ok ivs /\
    Forall (fun ab => num_lt (fst ab) (snd ab) = true) ivs /\
    forall i j abi abj, (i < j)%nat ->
      ivs !! i = Some abi -> ivs !! j = Some abj ->
      num_le (snd abi) (fst abj) = true /\
      num_lt (fst abi) (fst abj) = true /\
      forall x, ~ (contains abi x /\ contains abj x).
Proof.
  intros Htame Hinit.
  apply init_intervals in Hinit as (ivs & Hre & Hiv & _).
  apply reshape2_inv in Hre.
  destruct (tame_sorted raw Htame) as (Hs & Hn & Hp). rewrite Hre in Hs, Hn, Hp.
  destruct (flatten2_sorted ivs Hs) as [Hpair Hord].
  assert (Hpos : Forall (fun ab => num_lt (fst ab) (snd ab) = true)
                        (filter nonzero_width ivs)).
  { rewrite Forall_forall. intros [a b] Hin.
    apply list_elem_of_filter in Hin as [Hw Hin]. cbn [fst snd].
    rewrite Forall_forall in Hpair. specialize (Hpair _ Hin).
    apply nonzero_width_lt; [exact Hpair | now apply Is_true_eq_true | |].
    - destruct (is_ninf a) eqn:Ea, (is_ninf b) eqn:Eb; try reflexivity.
      pose proof (repeated_infinity is_ninf ivs a b Hin Ea Eb). lia.
    - destruct (is_pinf a) eqn:Ea, (is_pinf b) eqn:Eb; try reflexivity.
      pose proof (repeated_infinity is_pinf ivs a b Hin Ea Eb). lia. }
  exists (filter nonzero_width ivs). split; [exact Hiv|]. split; [exact Hpos|].
  intros i j abi abj Hij Hi Hj.
  assert (Hb : num_le (snd abi) (fst abj) = true).
  { apply (StronglySorted_lookup _ _ i j abi abj
             (StronglySorted_filter _ nonzero_width _ Hord) Hij Hi Hj). }
  assert (Ha : num_lt (fst abi) (snd abi) = true).
  { rewrite Forall_forall in Hpos. apply Hpos.
    now apply list_elem_of_lookup_2 in Hi. }
  split; [exact Hb|]. split; [now apply (num_lt_le_trans _ (snd abi))|].
  intros x [[_ Hxb] [Hax _]].
  pose proof (num_le_trans _ _ _ Hb Hax) as Hle.
  apply num_lt_not_le in Hxb. congruence.
Qed.

(** On tame cut points given as a list of pairs the constructor returns,
    and a zero-width pair leaves no interval behind. *)
Corollary init_pairs_invariant (pairs : list (num * num)) (mu sigma : num) :
  tame (flatten2 pairs) ->
  exists o ivs, init (flatten2 pairs) mu sigma = Ok o /\
    intervals o = Ok ivs /\
    Forall (fun ab => num_lt (fst ab) (snd ab) = true) ivs /\
    Forall (fun ab => num_eq (fst ab) (snd ab) = false) ivs.
Proof.
  intros Htame.
  destruct (init_pairs_Ok pairs mu sigma) as (ivs' & _ & Hinit).
  destruct (init_invariant _ _ _ _ Htame Hinit) as (ivs & Hiv & Hpos & _).
  eexists. exists ivs. split; [exact Hinit|]. split; [exact Hiv|].
  split; [exact Hpos|].
  eapply Forall_impl; [exact Hpos|]. intros [a b]. cbn [fst snd].
  destruct a, b; cbn; try easy.
  rewrite Qlt_bool_iff. intros Hlt. apply not_true_iff_false.
  rewrite Qeq_bool_iff. lra.
Qed.

(** ** Further properties of the constructor *)

Lemma reshape2_odd (n : nat) (l : list num) :
  length l = S (2 * n) -> reshape2 l = Raise ValueError_reshape.
Proof.
  revert l. induction n as [|n IH]; intros [|a [|b l]] Hl; cbn in Hl;
    try lia; try reflexivity.
  cbn. rewrite IH; [reflexivity | lia].
Qed.

(** The constructor accepts a flat array of cut points exactly when its
    length is even; an odd length fails in [reshape((-1,2))]. *)
Theorem init_parity (raw : list num) (mu sigma : num) :
  if Nat.even (length raw)
  then exists o, init raw mu sigma = Ok o
  else init raw mu sigma = Raise ValueError_reshape.
Proof.
  destruct (Nat.even (length raw)) eqn:E.
  - apply Nat.even_spec in E as [n Hn].
    destruct (reshape2_even n (np_sort raw)) as (ivs & Hre & _).
    { now rewrite length_np_sort. }
    eexists. apply init_Ok. exact Hre.
  - assert (Ho : Nat.odd (length raw) = true)
      by (rewrite <- Nat.negb_even, E; reflexivity).
    apply Nat.odd_spec in Ho as [n Hn].
    apply init_Raise, (reshape2_odd n). rewrite length_np_sort. lia.
Qed.

(** On cut points without NaN and without a repeated infinity, given as a
    list of pairs in any order, the constructor returns; every stored
    interval has [a < b], and of two stored intervals the earlier one ends
    no later than the later one starts, so that they are sorted by lower
    bound and share no point. *)
Theorem constructor_invariant (pairs : list (num * num)) (mu sigma : num) :
  tame (flatten2 pairs) ->
  exists o ivs,
    init (flatten2 pairs) mu sigma = Ok o /\ intervals o = Ok ivs /\
    Forall (fun ab => num_lt (fst ab) (snd ab) = true) ivs /\
    forall i j abi abj, (i < j)%nat ->
      ivs !! i = Some abi -> ivs !! j = Some abj ->
      num_le (snd abi) (fst abj) = true /\
      num_lt (fst abi) (fst abj) = true /\
      forall x, ~ (contains abi x /\ contains abj x).
Proof.
  intros Htame.
  destruct (init_pairs_Ok pairs mu sigma) as (ivs' & _ & Hinit).
  destruct (init_invariant _ _ _ _ Htame Hinit) as (ivs & Hiv & Hpos & Hord).
  eexists. exists ivs. split; [exact Hinit|]. split; [exact Hiv|].
  split; [exact Hpos | exact Hord].
Qed.

(** *** Sorting a sorted array *)

Lemma sort_le_trans (x y z : num) :
  sort_le x y = true -> sort_le y z = true -> sort_le x z = true.
Proof.
  destruct z; [reflexivity| | |]; destruct y; cbn; try easy;
    intros H1 H2; now apply (num_le_trans x _ _ H1).
Qed.

Lemma sort_le_total (x y : num) :
  sort_le x y = false -> sort_le y x = true.
Proof.
  destruct x as [| |p|], y as [| |q|]; cbn; try easy.
  apply (num_le_total (Fin p) (Fin q)); reflexivity.
Qed.

#[local] Instance Rsort_trans : Transitive Rsort.
Proof. intros x y z. apply sort_le_trans. Qed.

Lemma sort_insert_Rsort (x : num) (l : list num) :
  StronglySorted Rsort l -> StronglySorted Rsort (sort_insert x l).
Proof.
  induction l as [|y l IH]; intros Hs.
  - repeat constructor.
  - apply StronglySorted_inv in Hs as [Hs Hyl].
    cbn. destruct (sort_le x y) eqn:E.
    + constructor; [now constructor|].
      constructor; [exact E|].
      eapply Forall_impl; [exact Hyl|]. intros z Hz. now transitivity y.
    + constructor; [now apply IH|].
      rewrite sort_insert_Permutation. constructor; [|exact Hyl].
      now apply sort_le_total.
Qed.

(** [np.sort] sorts, whatever the array holds *)
Lemma np_sort_Rsort (l : list num) : StronglySorted Rsort (np_sort l).
Proof.
  induction l as [|x l IH]; [constructor|].
  change (np_sort (x :: l)) with (sort_insert x (np_sort l)).
  now apply sort_insert_Rsort.
Qed.

(** and leaves a sorted array as it is *)
Lemma np_sort_fixed (l : list num) : StronglySorted Rsort l -> np_sort l = l.
Proof.
  induction 1 as [|x l Hs IH Hx]; [reflexivity|].
  change (np_sort (x :: l)) with (sort_insert x (np_sort l)). rewrite IH.
  destruct l as [|y l]; [reflexivity|]. cbn.
  apply Forall_cons in Hx as [Hxy _]. unfold Rsort in Hxy. now rewrite Hxy.
Qed.

Lemma flatten2_filter_sorted (R : relation num) (f : num * num -> bool)
    (ivs : list (num * num)) :
  StronglySorted R (flatten2 ivs) -> StronglySorted R (flatten2 (filter f ivs)).
Proof.
  induction ivs as [|[a b] ivs IH]; intros Hs; [constructor|].
  change (flatten2 ((a, b) :: ivs)) with (a :: b :: flatten2 ivs) in Hs.
  apply StronglySorted_inv in Hs as [Hs Ha].
  pose proof Hs as Hs'. apply StronglySorted_inv in Hs' as [Htl Hb].
  rewrite filter_cons. destruct (decide _); [|now apply IH].
  change (flatten2 ((a, b) :: filter f ivs))
    with (a :: b :: flatten2 (filter f ivs)).
  assert (Hsub : forall x, x ∈ flatten2 (filter f ivs) -> x ∈ flatten2 ivs).
  { intros x. unfold flatten2. rewrite !list_elem_of_In, !in_flat_map.
    intros (ab & Hab & Hx). exists ab. split; [|exact Hx].
    apply list_elem_of_In. apply list_elem_of_In in Hab.
    now apply list_elem_of_filter in Hab as [_ Hab]. }
  apply Forall_cons in Ha as [Hab Ha].
  constructor; [constructor; [now apply IH|]|].
  - rewrite Forall_forall in *. intros x Hx. now apply Hb, Hsub.
  - constructor; [exact Hab|].
    rewrite Forall_forall in *. intros x Hx. now apply Ha, Hsub.
Qed.

(** Building a distribution again from the intervals of a constructed one,
    as the batch functions and the solver do for their working copy, gives
    the same array of cut points, whatever the new [mu] and [sigma]. *)
Theorem init_from_intervals (raw : list num) (mu sigma mu' sigma' : num)
    (o : t) (ivs : list (num * num)) :
  init raw mu sigma = Ok o -> intervals o = Ok ivs ->
  exists o', init (flatten2 ivs) mu' sigma' = Ok o' /\
             _cutoff_array o' = _cutoff_array o /\
             intervals o' = Ok ivs /\ _mu o' = mu' /\ _sigma o' = sigma' /\
             _negated o' = None.
Proof.
  intros Hinit Hiv.
  destruct (reshape2 (np_sort raw)) as [ivs0|e] eqn:E;
    [|rewrite (init_Raise _ _ _ _ E) in Hinit; discriminate].
  rewrite (init_Ok _ _ _ _ E) in Hinit. injection Hinit as <-.
  unfold intervals in Hiv. cbn [_cutoff_array] in Hiv |- *.
  rewrite reshape2_flatten2 in Hiv. injection Hiv as <-.
  assert (Hs : StronglySorted Rsort (flatten2 (filter nonzero_width ivs0))).
  { apply flatten2_filter_sorted.
    rewrite <- (reshape2_inv _ _ E). apply np_sort_Rsort. }
  eexists. split.
  - apply init_Ok. rewrite (np_sort_fixed _ Hs). apply reshape2_flatten2.
  - cbn [_cutoff_array _mu _sigma _negated intervals].
    rewrite list_filter_filter.
    assert (Hf : filter (fun x => nonzero_width x ∧ nonzero_width x) ivs0
                 = filter nonzero_width ivs0).
    { apply list_filter_iff. intros ab.
      split; [intros [H _]; exact H | intros H; split; exact H]. }
    rewrite Hf. repeat split. unfold intervals. cbn [_cutoff_array].
    apply reshape2_flatten2.
Qed.

(** ** Further properties of point queries *)

Lemma nonzero_from_two_inv (s : nat) (l : list bool) :
  (1 < length (nonzero_from s l))%nat ->
  exists i j, (i < j)%nat /\ l !! i = Some true /\ l !! j = Some true.
Proof.
  revert s. induction l as [|b l IH]; intros s H; [cbn in H; lia|].
  cbn in H. destruct b.
  - destruct (nonzero_from (S s) l) as [|k ks] eqn:E; [cbn in H; lia|].
    destruct (nonzero_from_elem (S s) k l) as (j & _ & Hj).
    { rewrite E. left. }
    exists 0%nat, (S j). split; [lia|]. split; [reflexivity | exact Hj].
  - destruct (IH _ H) as (i & j & Hij & Hi & Hj).
    exists (S i), (S j). split; [lia|]. split; assumption.
Qed.

(** [find_interval x] returns [k] exactly when interval [k] contains [x]
    and no other interval does. *)
Theorem find_interval_Ok_iff (self : t) (x : num) (ivs : list (num * num))
    (k : nat) :
  intervals self = Ok ivs ->
  (find_interval self x = Ok k <->
   (exists ab, ivs !! k = Some ab /\ contains ab x) /\
   (forall j ab', ivs !! j = Some ab' -> contains ab' x -> j = k)).
Proof.
  intros Hiv. split.
  - intros Hk.
    destruct (find_interval_sound _ _ _ Hk) as (ivs' & ab & Hiv' & Hab & Hc).
    rewrite Hiv in Hiv'. injection Hiv' as <-.
    split; [eauto|]. intros j ab' Hj Hc'.
    destruct (decide (j = k)) as [|Hne]; [assumption|].
    rewrite (find_interval_ambiguous _ _ _ _ _ _ _ Hiv Hne Hj Hc' Hab Hc) in Hk.
    discriminate.
  - intros [(ab & Hab & Hc) Hu]. now apply (find_interval_unique _ _ ivs k ab).
Qed.

(** On a distribution built from tame cut points a point query never
    raises the not-disjoint error: it returns the index of the interval
    containing [x], or raises the not-in-support error. *)
Theorem find_interval_constructed (raw : list num) (mu sigma : num) (o : t)
    (x : num) :
  tame raw -> init raw mu sigma = Ok o ->
  find_interval o x <> Raise ValueError_not_disjoint /\
  forall ivs k ab, intervals o = Ok ivs -> ivs !! k = Some ab ->
    contains ab x -> find_interval o x = Ok k.
Proof.
  intros Htame Hinit.
  destruct (init_invariant _ _ _ _ Htame Hinit) as (ivs & Hiv & _ & Hord).
  assert (Hdisj : forall i j abi abj, i <> j ->
            ivs !! i = Some abi -> ivs !! j = Some abj ->
            contains abi x -> contains abj x -> False).
  { intros i j abi abj Hne Hi Hj Hci Hcj.
    destruct (Nat.lt_ge_cases i j) as [Hlt|Hge].
    - destruct (Hord i j abi abj Hlt Hi Hj) as (_ & _ & Hd). now apply (Hd x).
    - destruct (Hord j i abj abi ltac:(lia) Hj Hi) as (_ & _ & Hd).
      now apply (Hd x). }
  split.
  - unfold find_interval. rewrite Hiv. cbn [rbind].
    set (check := map _ ivs).
    destruct (1 <? length (nonzero check))%nat eqn:E;
      [|now destruct (nonzero check)].
    apply Nat.ltb_lt in E.
    destruct (nonzero_from_two_inv 0 check E) as (i & j & Hij & Hi & Hj).
    unfold check in Hi, Hj. rewrite list_lookup_fmap in Hi, Hj.
    destruct (ivs !! i) as [abi|] eqn:Ei; [|discriminate].
    destruct (ivs !! j) as [abj|] eqn:Ej; [|discriminate].
    cbn in Hi, Hj. injection Hi as Hi. injection Hj as Hj.
    apply contains_check in Hi, Hj.
    exfalso. apply (Hdisj i j abi abj); [lia|done..].
  - intros ivs' k ab Hiv' Hk Hc. rewrite Hiv in Hiv'. injection Hiv' as <-.
    apply (find_interval_unique _ _ ivs k ab); [done..|].
    intros j ab' Hj Hc'. destruct (decide (j = k)) as [|Hne]; [assumption|].
    exfalso. now apply (Hdisj j k ab' ab).
Qed.

(** ** The setters *)

Lemma set_mu_Ok (tg : loc) (v : num) (h : heap) (o : t) ivs :
  h !! tg = Some o -> intervals o = Ok ivs ->
  set_mu _cdf _dnorm tg v h =
    (Ok tt, <[tg := mk (_cutoff_array o) v (_sigma o)
                       (map (mass _cdf v (_sigma o)) ivs)
                       (map (boundary_density _dnorm v (_sigma o)) ivs)
                       (_negated o)]> h).
Proof.
  intros Htg Hiv. rewrite (set_mu_eq _ _ _ _ Htg).
  rewrite (mu_or_sigma_changed_Ok _ ivs) by exact Hiv.
  now rewrite insert_insert_eq.
Qed.

Lemma set_sigma_Ok (tg : loc) (v : num) (h : heap) (o : t) ivs :
  h !! tg = Some o -> intervals o = Ok ivs ->
  set_sigma _cdf _dnorm tg v h =
    (Ok tt, <[tg := mk (_cutoff_array o) (_mu o) v
                       (map (mass _cdf (_mu o) v) ivs)
                       (map (boundary_density _dnorm (_mu o) v) ivs)
                       (_negated o)]> h).
Proof.
  intros Htg Hiv. rewrite (set_sigma_eq _ _ _ _ Htg).
  rewrite (mu_or_sigma_changed_Ok _ ivs) by exact Hiv.
  now rewrite insert_insert_eq.
Qed.

(** Setting [mu] and [sigma] on a constructed distribution, in either
    order, leaves exactly the object that the constructor builds from the
    same cut points with these parameters. *)
Theorem setters_rebuild (raw : list num) (mu0 sigma0 mu sigma : num)
    (tg : loc) (h : heap) (o : t) :
  init raw mu0 sigma0 = Ok o -> h !! tg = Some o ->
  exists o', init raw mu sigma = Ok o' /\
    (set_mu _cdf _dnorm tg mu ;;; set_sigma _cdf _dnorm tg sigma)%M h
      = (Ok tt, <[tg := o']> h) /\
    (set_sigma _cdf _dnorm tg sigma ;;; set_mu _cdf _dnorm tg mu)%M h
      = (Ok tt, <[tg := o']> h).
Proof.
  intros Hinit Htg.
  destruct (reshape2 (np_sort raw)) as [ivs0|e] eqn:E;
    [|rewrite (init_Raise _ _ _ _ E) in Hinit; discriminate].
  rewrite (init_Ok _ _ _ _ E) in Hinit. injection Hinit as <-.
  eexists. split; [apply init_Ok; exact E|].
  set (I := filter nonzero_width ivs0) in *.
  split; unfold bind.
  - erewrite set_mu_Ok; [|exact Htg|apply reshape2_flatten2].
    erewrite set_sigma_Ok; [|apply lookup_insert_eq|apply reshape2_flatten2].
    now rewrite insert_insert_eq.
  - erewrite set_sigma_Ok; [|exact Htg|apply reshape2_flatten2].
    erewrite set_mu_Ok; [|apply lookup_insert_eq|apply reshape2_flatten2].
    now rewrite insert_insert_eq.
Qed.

(** ** The factory [twosided] *)

Lemma init_four_sorted (a b : Q) (mu sigma : num) :
  (a <= b)%Q ->
  init [NInf; Fin a; Fin b; PInf] mu sigma =
    Ok (mk [NInf; Fin a; Fin b; PInf] mu sigma
           (map (mass _cdf mu sigma) [(NInf, Fin a); (Fin b, PInf)])
           (map (boundary_density _dnorm mu sigma) [(NInf, Fin a); (Fin b, PInf)])
           None).
Proof.
  intros Hab. apply Qle_bool_iff in Hab.
  rewrite (init_Ok _ _ _ [(NInf, Fin a); (Fin b, PInf)]); [reflexivity|].
  cbn. now rewrite Hab.
Qed.

Lemma Qabs_opp_eq (q : Q) : Qabs (- q) = Qabs q.
Proof. destruct q as [n d]. cbn. now rewrite Z.abs_opp. Qed.

(** [twosided(t)] at a finite threshold is the distribution on
    [(-inf, -|t|)] and [(|t|, inf)], and is the same for [t] and [-t].  A
    point below [-|t|] lies in interval 0 and a point from [|t|] on in
    interval 1; the points of [[-|t|, |t|)], [-|t|] included, are not in
    the support. *)
Theorem twosided_support (t p : Q) (mu sigma : num) :
  exists o,
    twosided _cdf _dnorm (Fin t) mu sigma = Ok o /\
    twosided _cdf _dnorm (Fin (- t)) mu sigma = Ok o /\
    intervals o = Ok [(NInf, Fin (- Qabs t)); (Fin (Qabs t), PInf)] /\
    (p < - Qabs t -> find_interval o (Fin p) = Ok 0%nat) /\
    (Qabs t <= p -> find_interval o (Fin p) = Ok 1%nat) /\
    (- Qabs t <= p -> p < Qabs t ->
       find_interval o (Fin p) = Raise ValueError_not_in_support).
Proof.
  pose proof (Qabs_nonneg t) as Hnn.
  assert (Hle : - Qabs t <= Qabs t) by lra.
  exists (mk [NInf; Fin (- Qabs t); Fin (Qabs t); PInf] mu sigma
             (map (mass _cdf mu sigma)
                  [(NInf, Fin (- Qabs t)); (Fin (Qabs t), PInf)])
             (map (boundary_density _dnorm mu sigma)
                  [(NInf, Fin (- Qabs t)); (Fin (Qabs t), PInf)])
             None).
  split; [|split; [|split; [reflexivity|]]].
  - unfold twosided. cbn [num_abs num_neg]. now apply init_four_sorted.
  - unfold twosided. cbn [num_abs num_neg]. rewrite Qabs_opp_eq.
    now apply init_four_sorted.
  - unfold find_interval, intervals. cbn.
    unfold Qlt_bool.
    destruct (Qle_bool (- Qabs t) p) eqn:E1, (Qle_bool (Qabs t) p) eqn:E2; cbn;
      repeat split; intros;
      try apply Qle_bool_iff in E1; try apply Qle_bool_iff in E2;
      try (apply not_true_iff_false in E1; rewrite Qle_bool_iff in E1);
      try (apply not_true_iff_false in E2; rewrite Qle_bool_iff in E2);
      try reflexivity; exfalso; lra.
Qed.

(** ** The reflected distribution *)

Lemma num_neg_le (x y : num) :
  num_le x y = true -> num_le (num_neg y) (num_neg x) = true.
Proof.
  destruct x, y; cbn; try easy.
  rewrite !Qle_bool_iff. apply Qopp_le_compat.
Qed.

Lemma neg_rev_sorted (l : list num) :
  StronglySorted Rle l -> StronglySorted Rle (map num_neg (rev l)).
Proof.
  induction 1 as [|x l Hs IH Hx]; [constructor|].
  cbn [rev]. rewrite map_app. apply StronglySorted_app_2.
  - intros y1 y2 H1 H2. apply list_elem_of_singleton in H2 as ->.
    apply list_elem_of_fmap in H1 as (z & -> & Hz).
    apply num_neg_le. rewrite Forall_forall in Hx. apply Hx.
    apply list_elem_of_In. apply list_elem_of_In, in_rev in Hz. exact Hz.
  - exact IH.
  - repeat constructor.
Qed.

Lemma Rle_Rsort (l : list num) :
  StronglySorted Rle l -> StronglySorted Rsort l.
Proof.
  induction 1 as [|x l Hs IH Hx]; constructor; [exact IH|].
  eapply Forall_impl; [exact Hx|]. intros y Hy.
  unfold Rsort, Rle in *. destruct y; try exact Hy. now destruct x.
Qed.

Lemma flatten2_app (l1 l2 : list (num * num)) :
  flatten2 (l1 ++ l2) = flatten2 l1 ++ flatten2 l2.
Proof. unfold flatten2. apply flat_map_app. Qed.

Lemma neg_rev_flatten2 (ivs : list (num * num)) :
  map num_neg (rev (flatten2 ivs)) = flatten2 (map reflect (rev ivs)).
Proof.
  induction ivs as [|[a b] ivs IH]; [reflexivity|].
  change (flatten2 ((a, b) :: ivs)) with (a :: b :: flatten2 ivs).
  cbn [rev]. rewrite (map_app reflect), flatten2_app, !(map_app num_neg), IH.
  now rewrite <- app_assoc.
Qed.

Lemma reflect_nonzero_width (ab : num * num) :
  num_lt (fst ab) (snd ab) = true -> nonzero_width (reflect ab) = true.
Proof.
  destruct ab as [[| |p|] [| |q|]]; cbn; try easy.
  unfold nonzero_width, num_ne. cbn.
  rewrite Qlt_bool_iff, negb_true_iff. intros Hlt.
  apply not_true_iff_false. rewrite Qeq_bool_iff. lra.
Qed.

Lemma filter_all {A} (f : A -> bool) (l : list A) :
  Forall (fun x => f x = true) l -> filter f l = l.
Proof.
  induction 1 as [|x l Hx Hl IH]; [reflexivity|].
  rewrite filter_cons, IH. destruct (decide _) as [|n]; [reflexivity|].
  rewrite Hx in n. now destruct n.
Qed.

(** On a distribution built from tame cut points, [negated] returns a new
    object whose intervals are the reflections [(-b, -a)] of the original
    intervals, in reverse order, with the same [mu] and [sigma]. *)
Theorem negated_reflects (raw : list num) (mu sigma : num) (o : t)
    (ivs : list (num * num)) (tg : loc) (h : heap) :
  tame raw -> init raw mu sigma = Ok o -> intervals o = Ok ivs ->
  h !! tg = Some o ->
  exists n h1 on,
    negated _cdf _dnorm tg h = (Ok n, h1) /\ n <> tg /\ h !! n = None /\
    h1 !! n = Some on /\
    intervals on = Ok (map reflect (rev ivs)) /\
    _mu on = mu /\ _sigma on = sigma.
Proof.
  intros Htame Hinit Hiv Htg.
  destruct (init_invariant _ _ _ _ Htame Hinit) as (ivs' & Hiv' & Hpos & _).
  rewrite Hiv in Hiv'. injection Hiv' as <-.
  pose proof Hinit as Hf.
  apply init_intervals in Hf as (ivs0 & Hre & Hiv0 & Hmu & Hsigma & Hneg & _).
  rewrite Hiv in Hiv0. injection Hiv0 as ->.
  assert (Hcut : _cutoff_array o = flatten2 (filter nonzero_width ivs0)).
  { rewrite (init_Ok _ _ _ _ Hre) in Hinit. now injection Hinit as <-. }
  assert (Hs : StronglySorted Rle (flatten2 (filter nonzero_width ivs0))).
  { apply flatten2_filter_sorted. rewrite <- (reshape2_inv _ _ Hre).
    now apply tame_sorted. }
  set (I := filter nonzero_width ivs0) in *.
  assert (Hinit' : init (map num_neg (rev (_cutoff_array o))) (_mu o) (_sigma o)
            = Ok (mk (flatten2 (map reflect (rev I))) mu sigma
                     (map (mass _cdf mu sigma) (map reflect (rev I)))
                     (map (boundary_density _dnorm mu sigma) (map reflect (rev I)))
                     None)).
  { rewrite Hcut, Hmu, Hsigma.
    erewrite init_Ok.
    - rewrite filter_all; [reflexivity|].
      rewrite Forall_forall. intros ab Hab.
      apply list_elem_of_fmap in Hab as (ab' & -> & Hab').
      apply reflect_nonzero_width. rewrite Forall_forall in Hpos. apply Hpos.
      apply list_elem_of_In. apply list_elem_of_In, in_rev in Hab'. exact Hab'.
    - rewrite np_sort_fixed by (apply Rle_Rsort, neg_rev_sorted, Hs).
      rewrite neg_rev_flatten2. apply reshape2_flatten2. }
  rewrite (negated_first _ _ _ Htg Hneg), Hinit'.
  do 3 eexists. split; [reflexivity|].
  split; [now apply (fresh_ne h tg o)|]. split; [apply fresh_None|].
  split.
  - rewrite lookup_insert_ne
      by (intros E; now apply (fresh_ne h tg o Htg)).
    apply lookup_insert_eq.
  - cbn [_mu _sigma]. split; [|now split].
    unfold intervals. cbn [_cutoff_array]. apply reshape2_flatten2.
Qed.

(** ** Errors and sentinels of the queries *)

(** Where [G] returns 0, [dG] returns NaN: when
    [CDF(left_endpoint) > alpha] the sentinel of [right_endpoint] goes
    through the arithmetic of [dG]. *)
Theorem dG_sentinel (self : t) (left_endpoint alpha alpha1 : num) :
  CDF self left_endpoint = Ok alpha1 -> num_gt alpha1 alpha = true ->
  dG_method self left_endpoint alpha = Ok NaN.
Proof.
  intros Hcdf Hgt. unfold truncated_gaussian.dG, truncated_gaussian.right_endpoint.
  rewrite Hcdf. cbn [rbind]. now rewrite Hgt.
Qed.

(** A point outside the support makes [CDF], [right_endpoint] and [dG]
    raise the not-in-support error; so does [G], except on a distribution
    without intervals, where it fails earlier on the columns of [D]. *)
Theorem outside_support_raises (self : t) (x alpha : num)
    (ivs : list (num * num)) :
  caches_current _cdf _dnorm self -> intervals self = Ok ivs ->
  (forall j ab, ivs !! j = Some ab -> ~ contains ab x) ->
  CDF self x = Raise ValueError_not_in_support /\
  right_endpoint self x alpha = Raise ValueError_not_in_support /\
  dG_method self x alpha = Raise ValueError_not_in_support /\
  G_method self x alpha =
    match ivs with
    | [] => Raise IndexError
    | _ :: _ => Raise ValueError_not_in_support
    end.
Proof.
  intros (ivs' & Hiv' & _ & HD) Hiv Hout.
  rewrite Hiv in Hiv'. injection Hiv' as <-.
  pose proof (find_interval_none self x ivs Hiv Hout) as Hf.
  assert (Hcdf : CDF self x = Raise ValueError_not_in_support)
    by (unfold truncated_gaussian.CDF; now rewrite Hf).
  assert (Hre : right_endpoint self x alpha = Raise ValueError_not_in_support)
    by (unfold truncated_gaussian.right_endpoint; now rewrite Hcdf).
  split; [exact Hcdf|]. split; [exact Hre|]. split.
  - unfold truncated_gaussian.dG. now rewrite Hre.
  - unfold truncated_gaussian.G. rewrite HD.
    destruct ivs; cbn [map D0_minus_D1 rbind]; [reflexivity|]. now rewrite Hre.
Qed.

(** *** [quantile] outside (0, 1] *)

Lemma length_cumsum_from (a : num) (l : list num) :
  length (cumsum_from a l) = length l.
Proof.
  revert a. induction l as [|x l IH]; intros a; [reflexivity|].
  cbn. now rewrite IH.
Qed.

Lemma cumsum_from_last (a x : num) (l : list num) :
  cumsum_from a (x :: l) !! length l = Some (fold_left num_add (x :: l) a).
Proof.
  revert a x. induction l as [|y l IH]; intros a x; [reflexivity|].
  change (cumsum_from a (x :: y :: l))
    with (num_add a x :: cumsum_from (num_add a x) (y :: l)).
  cbn [length lookup list_lookup]. now rewrite IH.
Qed.

Lemma nonzero_from_bound (s k : nat) (l : list bool) :
  k ∈ nonzero_from s l -> (k < s + length l)%nat.
Proof.
  intros H. apply nonzero_from_elem in H as (j & -> & Hj).
  apply lookup_lt_Some in Hj. lia.
Qed.

Lemma fold_left_max (l : list nat) (a n : nat) :
  (a <= n)%nat -> Forall (fun k => (k <= n)%nat) l -> a = n \/ n ∈ l ->
  fold_left Nat.max l a = n.
Proof.
  revert a. induction l as [|k l IH]; intros a Ha Hl Hn.
  - destruct Hn as [->|Hn]; [reflexivity | inversion Hn].
  - apply Forall_cons in Hl as [Hk Hl]. cbn. apply IH; [lia|exact Hl|].
    destruct Hn as [->|Hn]; [left; lia|].
    apply elem_of_cons in Hn as [->|Hn]; [left; lia | now right].
Qed.

Lemma py_max_list_is (l : list nat) (n : nat) :
  n ∈ l -> Forall (fun k => (k <= n)%nat) l -> py_max_list l = Ok n.
Proof.
  destruct l as [|k l]; intros Hn Hl; [inversion Hn|].
  apply Forall_cons in Hl as [Hk Hl]. cbn. f_equal.
  apply fold_left_max; [exact Hk|exact Hl|].
  apply elem_of_cons in Hn as [->|Hn]; [now left | now right].
Qed.

Lemma nonneg_add (x y : num) : nonneg x -> nonneg y -> nonneg (num_add x y).
Proof.
  intros (p & -> & Hp) (q & -> & Hq). exists (p + q). split; [reflexivity|lra].
Qed.

Lemma cumsum_from_nonneg (a : num) (l : list num) :
  nonneg a -> Forall nonneg l -> Forall nonneg (cumsum_from a l).
Proof.
  revert a. induction l as [|x l IH]; intros a Ha Hl; [constructor|].
  apply Forall_cons in Hl as [Hx Hl]. cbn.
  constructor; [now apply nonneg_add|]. apply IH; [now apply nonneg_add|exact Hl].
Qed.

Lemma num_sum_nonneg (l : list num) : Forall nonneg l -> nonneg (num_sum l).
Proof.
  unfold num_sum. assert (H0 : nonneg (Fin 0)) by (exists 0; split; [reflexivity|lra]).
  revert H0. generalize (Fin 0). induction l as [|x l IH]; intros a Ha Hl; [exact Ha|].
  apply Forall_cons in Hl as [Hx Hl]. cbn. apply IH; [now apply nonneg_add|exact Hl].
Qed.

(** [quantile] has no guard on its argument.  On a distribution whose
    masses are finite and non-negative, [q <= 0] leaves [max] with an empty
    sequence (ValueError); with a positive total mass, [q > 1] selects the
    index past the last interval (IndexError). *)
Theorem quantile_out_of_range (self : t) (r s : Q) :
  caches_current _cdf _dnorm self -> Forall nonneg (P self) ->
  num_sum (P self) = Fin s ->
  (r <= 0 -> quantile self (Fin r) = Raise ValueError_max_empty) /\
  (1 < r -> 0 < s -> quantile self (Fin r) = Raise IndexError).
Proof.
  intros (ivs & Hiv & HP & _) Hnn Hsum.
  assert (Hs : 0 <= s).
  { destruct (num_sum_nonneg _ Hnn) as (q & Hq & Hq0).
    rewrite Hsum in Hq. now injection Hq as ->. }
  assert (HC : Forall nonneg (cumsum (Fin 0 :: P self))).
  { apply cumsum_from_nonneg; [exists 0; split; [reflexivity|lra]|].
    constructor; [exists 0; split; [reflexivity|lra] | exact Hnn]. }
  unfold truncated_gaussian.quantile. cbv zeta. rewrite Hsum.
  cbn [num_mul]. split.
  - intros Hr. unfold nonzero. rewrite nonzero_from_none; [reflexivity|].
    intros j. rewrite list_lookup_fmap.
    destruct (cumsum (Fin 0 :: P self) !! j) as [c|] eqn:E; [|discriminate].
    rewrite Forall_forall in HC.
    destruct (HC c) as (q & -> & Hq); [now apply list_elem_of_lookup_2 in E|].
    cbn. intros [= H]. apply Qlt_bool_iff in H. nra.
  - intros Hr Hpos.
    set (n := length (P self)).
    assert (Hlast : cumsum (Fin 0 :: P self) !! n = Some (Fin s)).
    { unfold cumsum, n. rewrite cumsum_from_last. cbn [fold_left].
      change (num_add (Fin 0) (Fin 0)) with (Fin 0).
      unfold num_sum in Hsum. now rewrite Hsum. }
    set (check := map _ (cumsum (Fin 0 :: P self))).
    assert (Hn : n ∈ nonzero check).
    { unfold nonzero. apply (nonzero_from_some 0 n). unfold check.
      rewrite list_lookup_fmap, Hlast. cbn. f_equal. apply Qlt_bool_iff. nra. }
    rewrite (py_max_list_is _ n Hn).
    + cbn [rbind]. unfold index at 1. rewrite Hlast. cbn [rbind].
      rewrite Hiv. cbn [rbind]. unfold index.
      rewrite lookup_ge_None_2; [reflexivity|].
      unfold n. rewrite HP, length_map. lia.
    + rewrite Forall_forall. intros k Hk. unfold nonzero in Hk.
      apply nonzero_from_bound in Hk. unfold check in Hk. rewrite length_map in Hk. unfold cumsum in Hk.
      rewrite length_cumsum_from in Hk. cbn [length] in Hk. unfold n. lia.
Qed.

(** ** The solver *)

(** *** Frame *)

Lemma only_ret {A} (w : loc) (a : A) : only w (ret a).
Proof. now intros h l _. Qed.

Lemma only_raise {A} (w : loc) (e : exn) : only w (@raise A e).
Proof. now intros h l _. Qed.

Lemma only_bind {A B} (w : loc) (m : M A) (k : A -> M B) :
  only w m -> (forall a, only w (k a)) -> only w (bind m k).
Proof.
  intros Hm Hk h l Hl. unfold bind. specialize (Hm h l Hl).
  destruct (m h) as [[a|e] h1]; cbn [snd] in *; [|exact Hm].
  now rewrite (Hk a h1 l Hl).
Qed.

Lemma only_set_mu (w : loc) (v : num) : only w (set_mu _cdf _dnorm w v).
Proof. intros h l Hl. now apply set_mu_frame. Qed.

Lemma only_call_G (w : loc) (X alpha : num) :
  only w (call_G _cdf _dnorm _qnorm w X alpha).
Proof. intros h l _. now rewrite call_G_heap. Qed.

Lemma only_while {S} (w : loc) (cond : S -> M bool) (body : S -> M S)
    (fuel : nat) :
  (forall s, only w (cond s)) -> (forall s, only w (body s)) ->
  forall s, only w (while fuel cond body s).
Proof.
  intros Hc Hb. induction fuel as [|fuel IH]; intros s; [apply only_ret|].
  cbn [while]. apply only_bind; [apply Hc|]. intros [|]; [|apply only_ret].
  apply only_bind; [apply Hb | apply IH].
Qed.

Lemma only_expand_low (w : loc) (fuel : nat) (X alpha : num) (s : num * num) :
  only w (expand_low _cdf _dnorm _qnorm fuel w X alpha s).
Proof.
  apply only_bind; [apply only_set_mu|]. intros _. apply only_while.
  - intros s'. apply only_bind; [apply only_call_G|]. intros g. apply only_ret.
  - intros s'. apply only_bind; [apply only_set_mu|]. intros _. apply only_ret.
Qed.

Lemma only_expand_high (w : loc) (fuel : nat) (X alpha : num) (s : num * num) :
  only w (expand_high _cdf _dnorm _qnorm fuel w X alpha s).
Proof.
  apply only_bind; [apply only_set_mu|]. intros _. apply only_while.
  - intros s'. apply only_bind; [apply only_call_G|]. intros g. apply only_ret.
  - intros s'. apply only_bind; [apply only_raise|]. intros v.
    apply only_bind; [apply only_set_mu|]. intros _. apply only_ret.
Qed.

Lemma only_bisection (w : loc) (fuel : nat) (X alpha tol : num)
    (s : num * num) :
  only w (bisection _cdf _dnorm _qnorm fuel w X alpha tol s).
Proof.
  apply only_bind.
  - apply only_while; [intros s'; apply only_ret|].
    intros s'. apply only_bind; [apply only_set_mu|]. intros _.
    apply only_bind; [apply only_call_G|]. intros g.
    destruct (num_lt g (Fin 0)); apply only_ret.
  - intros [[s' [m|]]|]; [apply only_ret | apply only_raise | apply only_ret].
Qed.

(** The solver works on a copy: whatever it returns or raises, every
    object that the store held before the call, the template with its
    [mu], [sigma] and caches included, is left as it was. *)
Theorem _UMAU_leaves_store (fuel : nat) (observed alpha tol : num) (tg : loc)
    (mu_lo mu_hi : option num) (h : heap) (l : loc) (o : t) :
  h !! l = Some o ->
  snd (_UMAU _cdf _dnorm _qnorm fuel observed alpha tg mu_lo mu_hi tol h) !! l
    = Some o.
Proof.
  intros Hl. unfold _UMAU, bind at 1.
  unfold getattr_intervals, bind at 1, deref, lift.
  destruct (h !! tg) as [ot|] eqn:Htg; cbn [snd]; [|exact Hl].
  destruct (intervals ot) as [ivs|e]; cbn [snd]; [|exact Hl].
  unfold bind at 1. unfold bind at 1. rewrite Htg. unfold ret at 1.
  unfold bind at 1. rewrite new_eq.
  destruct (init _ _ _) as [o0|e]; cbn [snd]; [|exact Hl].
  pose proof (fresh_ne h l o Hl) as Hne.
  set (w := fresh (dom h)) in *.
  match goal with |- snd (?m ?h') !! l = _ =>
    assert (Ho : only w m); [|rewrite (Ho h' l); [|congruence]] end.
  - apply only_bind; [apply only_expand_low|]. intros [s1|]; [|apply only_ret].
    apply only_bind; [apply only_expand_high|]. intros [s2|]; [|apply only_ret].
    apply only_bisection.
  - now rewrite lookup_insert_ne.
Qed.

(** *** Loop invariants *)

Lemma while_invariant {S} (Inv : S -> heap -> Prop) (cond : S -> M bool)
    (body : S -> M S) :
  (forall s h b h1, Inv s h -> cond s h = (Ok b, h1) -> Inv s h1) ->
  (forall s h s' h1, Inv s h -> body s h = (Ok s', h1) -> Inv s' h1) ->
  forall fuel s h r h',
    Inv s h -> while fuel cond body s h = (Ok (Some r), h') ->
    Inv r h' /\ exists h0, Inv r h0 /\ cond r h0 = (Ok false, h').
Proof.
  intros Hc Hb. induction fuel as [|fuel IH]; intros s h r h' Hinv Hw;
    [discriminate|].
  cbn [while] in Hw. unfold bind at 1 in Hw.
  destruct (cond s h) as [[b|e] h1] eqn:Ec; [|discriminate].
  pose proof (Hc _ _ _ _ Hinv Ec) as Hinv1.
  destruct b.
  - unfold bind at 1 in Hw.
    destruct (body s h1) as [[s'|e] h2] eqn:Eb; [|discriminate].
    apply (IH s' h2); [|exact Hw]. now apply (Hb s h1).
  - unfold ret in Hw. injection Hw as <- <-. split; [exact Hinv1|]. eauto.
Qed.


(** When the bracket is no wider than the tolerance as bisection starts
    (or its width is NaN), the loop body never runs and [return mu_bar]
    fails on the unassigned name. *)
Theorem bisection_narrow_bracket (fuel : nat) (tg : loc) (X alpha tol : num)
    (s : num * num) (h : heap) :
  num_gt (num_sub (snd s) (fst s)) tol = false ->
  bisection _cdf _dnorm _qnorm (S fuel) tg X alpha tol s h
    = (Raise UnboundLocalError_mu_bar, h).
Proof.
  intros Hn. unfold bisection, bind. cbn [while]. unfold bind, bracket_wide, ret.
  cbn [fst snd]. now rewrite Hn.
Qed.


(** When the bracket-low expansion returns, the bracket is the initial one
    or has the form [(l - 2, l)], the working copy's mean is the low end
    of the bracket, and [G] there is not negative. *)
Theorem expand_low_exit (fuel : nat) (tg : loc) (X alpha : num)
    (s s' : num * num) (h h' : heap) :
  expand_low _cdf _dnorm _qnorm fuel tg X alpha s h = (Ok (Some s'), h') ->
  (s' = s \/ exists l, s' = (num_sub l (Fin 2), l)) /\
  (exists o, h' !! tg = Some o /\ _mu o = fst s') /\
  exists g, call_G _cdf _dnorm _qnorm tg X alpha h' = (Ok g, h') /\
            num_lt g (Fin 0) = false.
Proof.
  unfold expand_low, bind at 1.
  destruct (set_mu _ _ _ _ _) as [[[]|e] h1] eqn:Es; [|discriminate].
  intros Hw.
  assert (H1 : exists o, h1 !! tg = Some o /\ _mu o = fst s).
  { destruct (h !! tg) as [o|] eqn:Htg.
    - destruct (set_mu_tg tg (fst s) h o Htg) as (o' & Ho' & Hmu & _).
      rewrite Es in Ho'. eauto.
    - rewrite (set_mu_missing _ _ _ Htg) in Es. discriminate. }
  pose (Inv := fun (st : num * num) (hh : heap) =>
    (st = s \/ exists l, st = (num_sub l (Fin 2), l)) /\
    exists o, hh !! tg = Some o /\ _mu o = fst st).
  destruct (while_invariant Inv (mu_too_high _cdf _dnorm _qnorm tg X alpha)
              (lower_bracket _cdf _dnorm tg))
    with (fuel := fuel) (s := s) (h := h1) (r := s') (h' := h')
    as [[Hform Hmu] (h0 & _ & Hc)].
  - intros st hh b hh1 Hi Hcond.
    assert (hh1 = hh) as ->; [|exact Hi].
    unfold mu_too_high, bind, ret in Hcond.
    pose proof (call_G_heap tg X alpha hh) as Hh.
    destruct (call_G _ _ _ _ _ _ _) as [[g|e] h2]; cbn [snd] in Hh; congruence.
  - intros st hh st' hh1 [_ (o & Ho & _)] Hbody.
    unfold lower_bracket, bind, ret in Hbody. cbn [fst snd] in Hbody.
    destruct (set_mu_tg tg (num_sub (fst st) (Fin 2)) hh o Ho)
      as (o' & Ho' & Hmu' & _).
    destruct (set_mu _cdf _dnorm tg (num_sub (fst st) (Fin 2)) hh)
      as [[[]|e] h2]; [|discriminate].
    injection Hbody as <- <-. cbn [snd] in Ho'. split; [right; eauto|].
    exists o'. now split.
  - split; [now left | exact H1].
  - exact Hw.
  - split; [exact Hform|]. split; [exact Hmu|].
    unfold mu_too_high, bind, ret in Hc.
    pose proof (call_G_heap tg X alpha h0) as Hh.
    destruct (call_G _ _ _ _ _ _ _) as [[g|e] h2] eqn:Eg; [|discriminate].
    injection Hc as Hg <-. cbn [snd] in Hh. subst h2.
    exists g. now split.
Qed.

(** ** More on point queries, the batch functions and the solver *)

Lemma tame_disjoint (raw : list num) (mu sigma : num) (o : t) ivs
    (i j : nat) abi abj (x : num) :
  tame raw -> init raw mu sigma = Ok o -> intervals o = Ok ivs ->
  i <> j -> ivs !! i = Some abi -> ivs !! j = Some abj ->
  contains abi x -> contains abj x -> False.
Proof.
  intros Htame Hinit Hiv Hne Hi Hj Hci Hcj.
  destruct (init_invariant _ _ _ _ Htame Hinit) as (ivs' & Hiv' & _ & Hord).
  rewrite Hiv in Hiv'. injection Hiv' as <-.
  destruct (Nat.lt_ge_cases i j) as [Hlt|Hge].
  - destruct (Hord i j abi abj Hlt Hi Hj) as (_ & _ & Hd). now apply (Hd x).
  - destruct (Hord j i abj abi ltac:(lia) Hj Hi) as (_ & _ & Hd).
    now apply (Hd x).
Qed.

Lemma num_lt_irrefl (x : num) : num_lt x x = false.
Proof.
  destruct x as [| |q|]; try reflexivity. cbn.
  apply not_true_iff_false. rewrite Qlt_bool_iff. lra.
Qed.

Lemma num_lt_le_refl (x y : num) : num_lt x y = true -> num_le x x = true.
Proof.
  destruct x as [| |q|], y; cbn; try easy; intros _; apply Qle_bool_iff; lra.
Qed.

(** The stored intervals are half-open: on a distribution built from tame
    cut points, the lower bound of interval [k] is found in interval [k],
    its upper bound is not. *)
Theorem endpoints_half_open (raw : list num) (mu sigma : num) (o : t) ivs
    (k : nat) (ab : num * num) :
  tame raw -> init raw mu sigma = Ok o -> intervals o = Ok ivs ->
  ivs !! k = Some ab ->
  find_interval o (fst ab) = Ok k /\ find_interval o (snd ab) <> Ok k.
Proof.
  intros Htame Hinit Hiv Hk.
  destruct (init_invariant _ _ _ _ Htame Hinit) as (ivs' & Hiv' & Hpos & _).
  rewrite Hiv in Hiv'. injection Hiv' as <-.
  assert (Hlt : num_lt (fst ab) (snd ab) = true).
  { rewrite Forall_forall in Hpos. apply Hpos.
    now apply list_elem_of_lookup_2 in Hk. }
  assert (Hc : contains ab (fst ab)).
  { split; [now apply (num_lt_le_refl _ (snd ab)) | exact Hlt]. }
  split.
  - apply (find_interval_unique _ _ ivs k ab); [done..|].
    intros j ab' Hj Hc'. destruct (decide (j = k)) as [|Hne]; [assumption|].
    exfalso.
    now apply (tame_disjoint raw mu sigma o ivs j k ab' ab (fst ab)).
  - intros Hf. apply find_interval_sound in Hf as (ivs' & ab' & Hiv' & Hk' & Hc').
    rewrite Hiv in Hiv'. injection Hiv' as <-.
    rewrite Hk in Hk'. injection Hk' as <-.
    destruct Hc' as [_ Hb]. rewrite num_lt_irrefl in Hb. discriminate.
Qed.

Lemma for_each_length {A B} (f : A -> M B) (xs : list A) :
  forall (h h' : heap) bs,
    for_each f xs h = (Ok bs, h') -> length bs = length xs.
Proof.
  induction xs as [|a xs IH]; intros h h' bs H.
  - unfold for_each, ret in H. now injection H as <- _.
  - cbn [for_each] in H. unfold bind at 1 in H.
    destruct (f a h) as [[b|e] h1]; [|discriminate].
    unfold bind at 1 in H.
    destruct (for_each f xs h1) as [[bs'|e] h2] eqn:E; [|discriminate].
    unfold ret in H. injection H as <- _. cbn. f_equal. now apply (IH h1 h2).
Qed.

(** The batch functions pair the two sequences with [zip]: when they
    return, there is one result per pair, and the surplus of the longer
    sequence is ignored. *)
Theorem batch_length (left_endpoints mus : list num) (alpha : num) (tg : loc)
    (h h' : heap) (rs : list num) :
  batch_G _cdf _dnorm _qnorm left_endpoints mus alpha tg h = (Ok rs, h') \/
  batch_dG _cdf _dnorm _qnorm left_endpoints mus alpha tg h = (Ok rs, h') ->
  length rs = Nat.min (length left_endpoints) (length mus).
Proof.
  rewrite <- length_combine.
  intros [H|H]; [unfold batch_G in H | unfold batch_dG in H];
    unfold bind at 1 in H;
    (destruct (getattr_intervals _ _) as [[ivs|e] h1]; [|discriminate]);
    unfold bind at 1 in H;
    (destruct (new _ _ _ _ _ _) as [[w|e] h2]; [|discriminate]);
    now apply for_each_length in H.
Qed.

(** The bracket-high expansion never moves the bracket and never runs out
    of rounds: after at most one evaluation of [G] it returns the bracket
    it was given, or it raises. *)
Theorem expand_high_never_moves (fuel : nat) (tg : loc) (X alpha : num)
    (s : num * num) (h : heap) :
  match fst (expand_high _cdf _dnorm _qnorm (S fuel) tg X alpha s h) with
  | Ok (Some s') => s' = s
  | Ok None => False
  | Raise _ => True
  end.
Proof.
  unfold expand_high, bind at 1.
  destruct (set_mu _ _ _ _ _) as [[[]|e] h1]; [|exact I].
  cbn [while]. unfold bind at 1, mu_too_low, bind at 1.
  destruct (call_G _ _ _ _ _ _ _) as [[g|e] h2]; [|exact I].
  unfold ret at 1. destruct (num_gt g (Fin 0)); [|reflexivity].
  unfold bind at 1. now rewrite raise_bracket_raises.
Qed.

(** *** C4: overlapping input *)

Lemma init_overlapping (a1 a2 b1 b2 : Q) (mu sigma : num) :
  a1 < a2 -> a2 < b1 -> b1 < b2 ->
  init (flatten2 [(Fin a1, Fin b1); (Fin a2, Fin b2)]) mu sigma =
    Ok (mk [Fin a1; Fin a2; Fin b1; Fin b2] mu sigma
           (map (mass _cdf mu sigma) [(Fin a1, Fin a2); (Fin b1, Fin b2)])
           (map (boundary_density _dnorm mu sigma)
                [(Fin a1, Fin a2); (Fin b1, Fin b2)])
           None).
Proof.
  intros H1 H2 H3.
  assert (E1 : Qle_bool a2 b2 = true) by (apply Qle_bool_iff; lra).
  assert (E2 : Qle_bool b1 a2 = false).
  { apply not_true_iff_false. rewrite Qle_bool_iff. lra. }
  assert (E3 : Qle_bool b1 b2 = true) by (apply Qle_bool_iff; lra).
  assert (E4 : Qle_bool a1 a2 = true) by (apply Qle_bool_iff; lra).
  rewrite (init_Ok _ _ _ [(Fin a1, Fin a2); (Fin b1, Fin b2)]).
  - rewrite filter_all; [reflexivity|].
    repeat constructor; unfold nonzero_width, num_ne; cbn;
      apply negb_true_iff, not_true_iff_false; rewrite Qeq_bool_iff; lra.
  - cbn. rewrite E1. cbn. rewrite E2. cbn. rewrite E3. cbn. now rewrite E4.
Qed.

(** C4, as the code has it: on two overlapping intervals [(a1, b1)] and
    [(a2, b2)] with [a1 < a2 < b1 < b2], among them the [(-1,1), (0,2)] of
    the claim, the constructor raises nothing; it sorts the four cut points
    and pairs them again as [(a1, a2)] and [(b1, b2)].  At every point of
    the overlap [[a2, b1)] both [find_interval] and [CDF] raise the
    not-in-support error, and no point query on the object ever raises the
    not-disjoint error: the overlap is not surfaced. *)
Theorem overlapping_input_repaired (a1 a2 b1 b2 x : Q) (mu sigma : num) :
  a1 < a2 -> a2 < b1 -> b1 < b2 -> a2 <= x -> x < b1 ->
  exists o,
    init (flatten2 [(Fin a1, Fin b1); (Fin a2, Fin b2)]) mu sigma = Ok o /\
    intervals o = Ok [(Fin a1, Fin a2); (Fin b1, Fin b2)] /\
    find_interval o (Fin x) = Raise ValueError_not_in_support /\
    CDF o (Fin x) = Raise ValueError_not_in_support /\
    forall y, find_interval o y <> Raise ValueError_not_disjoint /\
              CDF o y <> Raise ValueError_not_disjoint.
Proof.
  intros H1 H2 H3 Hx1 Hx2.
  eexists. split; [now apply init_overlapping|].
  split; [reflexivity|].
  assert (Hf : find_interval
            (mk [Fin a1; Fin a2; Fin b1; Fin b2] mu sigma
                (map (mass _cdf mu sigma) [(Fin a1, Fin a2); (Fin b1, Fin b2)])
                (map (boundary_density _dnorm mu sigma)
                     [(Fin a1, Fin a2); (Fin b1, Fin b2)]) None) (Fin x)
            = Raise ValueError_not_in_support).
  { eapply find_interval_none; [reflexivity|].
    intros [|[|j]] ab Hj [Ha Hb]; cbn in Hj; try discriminate;
      injection Hj as <-; cbn [fst snd num_le num_lt] in Ha, Hb.
    - apply Qlt_bool_iff in Hb. lra.
    - apply Qle_bool_iff in Ha. lra. }
  split; [exact Hf|].
  split; [unfold truncated_gaussian.CDF; now rewrite Hf|].
  intros y.
  assert (Hy : find_interval
            (mk [Fin a1; Fin a2; Fin b1; Fin b2] mu sigma
                (map (mass _cdf mu sigma) [(Fin a1, Fin a2); (Fin b1, Fin b2)])
                (map (boundary_density _dnorm mu sigma)
                     [(Fin a1, Fin a2); (Fin b1, Fin b2)]) None) y
            <> Raise ValueError_not_disjoint).
  { unfold find_interval, intervals. cbn [_cutoff_array reshape2 rbind map fst snd].
    destruct (num_ge y (Fin a1) && num_lt y (Fin a2)) eqn:E0;
      destruct (num_ge y (Fin b1) && num_lt y (Fin b2)) eqn:E1;
      cbn; try discriminate.
    exfalso. apply andb_true_iff in E0 as [_ E0]. apply andb_true_iff in E1 as [E1 _].
    destruct y as [| |q|]; cbn in E0, E1; try discriminate.
    apply Qlt_bool_iff in E0. apply Qle_bool_iff in E1. lra. }
  split; [exact Hy|].
  unfold truncated_gaussian.CDF. intros Hc.
  destruct (find_interval _ y) as [k|e] eqn:Ek.
  - cbn [rbind] in Hc. unfold intervals in Hc.
    cbn [_cutoff_array reshape2 rbind] in Hc.
    unfold index in Hc.
    destruct (_ !! k); cbn [rbind] in Hc; discriminate Hc.
  - cbn [rbind] in Hc. now injection Hc as ->.
Qed.

End Properties.

(** ** Concrete runs *)

Lemma find_interval_spec_witness :
  truncated_gaussian.find_interval two_tails (Fin 2) = Ok 1%nat /\
  truncated_gaussian.find_interval two_tails (Fin 0) = Raise ValueError_not_in_support /\
  truncated_gaussian.find_interval overlapping (Fin (1 # 2)) = Raise ValueError_not_disjoint.
Proof.
  split; [|split].
  - refine (proj1 (find_interval_spec sigmoid_cdf sigmoid_dnorm two_tails (Fin 2)
                     [(NInf, Fin (-1)); (Fin 1, PInf)] eq_refl)
                  1%nat (Fin 1, PInf) eq_refl _ _).
    + split; reflexivity.
    + intros [|[|j]] ab' Hj [Ha Hb]; cbn in Hj; try discriminate; [|reflexivity].
      injection Hj as <-. discriminate Hb.
  - refine (proj1 (proj2 (find_interval_spec sigmoid_cdf sigmoid_dnorm two_tails (Fin 0)
                     [(NInf, Fin (-1)); (Fin 1, PInf)] eq_refl)) _).
    intros [|[|j]] ab Hj [Ha Hb]; cbn in Hj; try discriminate;
      injection Hj as <-; discriminate.
  - refine (proj1 (proj2 (proj2 (find_interval_spec sigmoid_cdf sigmoid_dnorm overlapping
                     (Fin (1 # 2)) [(Fin (-1), Fin 1); (Fin 0, Fin 2)] eq_refl)))
                  0%nat 1%nat (Fin (-1), Fin 1) (Fin 0, Fin 2) _ eq_refl _ eq_refl _).
    + discriminate.
    + split; reflexivity.
    + split; reflexivity.
Defined.

Lemma right_endpoint_sentinel_witness :
  truncated_gaussian.right_endpoint sigmoid_cdf sigmoid_qnorm two_tails
    (Fin 2) (Fin (1 # 20)) = Ok NaN /\
  truncated_gaussian.G sigmoid_cdf sigmoid_dnorm sigmoid_qnorm two_tails
    (Fin 2) (Fin (1 # 20)) = Ok (Fin 0).
Proof.
  refine (proj1 (right_endpoint_sentinel sigmoid_cdf sigmoid_dnorm sigmoid_qnorm
                   two_tails (Fin 2) (Fin (1 # 20)) _)
                (Fin (16384 # 24576)) _ _).
  - exists [(NInf, Fin (-1)); (Fin 1, PInf)]. repeat split; reflexivity.
  - vm_compute. reflexivity.
  - vm_compute. reflexivity.
Defined.

(** The claim of C4 fails on its own example: construction succeeds, and
    the query at [1/2], inside the overlap, does not raise the not-disjoint
    error. *)
Lemma overlapping_input_not_surfaced :
  let r := truncated_gaussian.init sigmoid_cdf sigmoid_dnorm
             (flatten2 [(Fin (-1), Fin 1); (Fin 0, Fin 2)]) (Fin 0) (Fin 1) in
  ~ ((exists e, r = Raise e) \/
     (exists o, r = Ok o /\
        truncated_gaussian.find_interval o (Fin (1 # 2))
          = Raise ValueError_not_disjoint)).
Proof.
  cbv zeta. intros [[e He]|[o [Ho Hq]]].
  - vm_compute in He. discriminate.
  - vm_compute in Ho. injection Ho as <-. vm_compute in Hq. discriminate.
Qed.

Lemma expand_high_NameError_witness :
  fst (expand_high sigmoid_cdf sigmoid_dnorm sigmoid_qnorm 1 0%nat
         (Fin 0) (Fin (1 # 4)) (Fin 0, Fin 2) {[ 0%nat := whole_line ]})
  = Raise NameError_mu_ho.
Proof.
  erewrite (expand_high_NameError sigmoid_cdf sigmoid_dnorm sigmoid_qnorm
              0 0%nat (Fin 0) (Fin (1 # 4)) (Fin 0, Fin 2)
              {[ 0%nat := whole_line ]}).
  - reflexivity.
  - vm_compute. reflexivity.
  - vm_compute. reflexivity.
  - vm_compute. reflexivity.
Defined.

Lemma batch_leaves_template_witness :
  snd (G sigmoid_cdf sigmoid_dnorm sigmoid_qnorm [Fin 2; Fin 3] [Fin 4; Fin 5]
         (Fin (1 # 20)) 0%nat {[ 0%nat := two_tails_scaled ]}) !! 0%nat
    = Some two_tails_scaled /\
  snd (dG sigmoid_cdf sigmoid_dnorm sigmoid_qnorm [Fin 2; Fin 3] [Fin 4; Fin 5]
         (Fin (1 # 20)) 0%nat {[ 0%nat := two_tails_scaled ]}) !! 0%nat
    = Some two_tails_scaled.
Proof.
  exact (proj1 (batch_leaves_template sigmoid_cdf sigmoid_dnorm sigmoid_qnorm
                  [Fin 2; Fin 3] [Fin 4; Fin 5] (Fin (1 # 20)) 0%nat
                  {[ 0%nat := two_tails_scaled ]} two_tails_scaled eq_refl)
               0%nat two_tails_scaled eq_refl).
Defined.

Lemma batch_uses_sigma_1_witness :
  fst (G sigmoid_cdf sigmoid_dnorm sigmoid_qnorm [Fin 2; Fin 3] [Fin 4; Fin 5]
         (Fin (1 # 20)) 0%nat {[ 0%nat := two_tails_scaled ]})
    = result_map
        (fun lm =>
           o' <- truncated_gaussian.init sigmoid_cdf sigmoid_dnorm
                   (flatten2 [(NInf, Fin (-1)); (Fin 1, PInf)]) (snd lm) (Fin 1) ;;
           truncated_gaussian.G sigmoid_cdf sigmoid_dnorm sigmoid_qnorm o'
             (fst lm) (Fin (1 # 20)))%result
        (combine [Fin 2; Fin 3] [Fin 4; Fin 5]) /\
  fst (dG sigmoid_cdf sigmoid_dnorm sigmoid_qnorm [Fin 2; Fin 3] [Fin 4; Fin 5]
         (Fin (1 # 20)) 0%nat {[ 0%nat := two_tails_scaled ]})
    = result_map
        (fun lm =>
           o' <- truncated_gaussian.init sigmoid_cdf sigmoid_dnorm
                   (flatten2 [(NInf, Fin (-1)); (Fin 1, PInf)]) (snd lm) (Fin 1) ;;
           truncated_gaussian.dG sigmoid_cdf sigmoid_dnorm sigmoid_qnorm o'
             (fst lm) (Fin (1 # 20)))%result
        (combine [Fin 2; Fin 3] [Fin 4; Fin 5]).
Proof.
  exact (batch_uses_sigma_1 sigmoid_cdf sigmoid_dnorm sigmoid_qnorm
           [Fin 2; Fin 3] [Fin 4; Fin 5] (Fin (1 # 20)) 0%nat
           {[ 0%nat := two_tails_scaled ]} two_tails_scaled
           [(NInf, Fin (-1)); (Fin 1, PInf)] eq_refl eq_refl).
Defined.

Lemma negated_cache_is_stale_witness :
  let h1 := snd (negated sigmoid_cdf sigmoid_dnorm 0%nat
                   {[ 0%nat := two_tails_scaled ]}) in
  exists on,
    1%nat <> 0%nat /\ h1 !! 1%nat = Some on /\
    truncated_gaussian._mu on = Fin 3 /\
    truncated_gaussian._sigma on = Fin 2 /\
    forall v,
      (let h2 := snd (set_mu sigmoid_cdf sigmoid_dnorm 0%nat v h1) in
       negated sigmoid_cdf sigmoid_dnorm 0%nat h2 = (Ok 1%nat, h2) /\
       h2 !! 1%nat = Some on /\
       exists o2, h2 !! 0%nat = Some o2 /\ truncated_gaussian._mu o2 = v) /\
      (let h2 := snd (set_sigma sigmoid_cdf sigmoid_dnorm 0%nat v h1) in
       negated sigmoid_cdf sigmoid_dnorm 0%nat h2 = (Ok 1%nat, h2) /\
       h2 !! 1%nat = Some on /\
       exists o2, h2 !! 0%nat = Some o2 /\ truncated_gaussian._sigma o2 = v).
Proof.
  exact (negated_cache_is_stale sigmoid_cdf sigmoid_dnorm 0%nat 1%nat
           {[ 0%nat := two_tails_scaled ]} _ two_tails_scaled
           eq_refl eq_refl eq_refl).
Defined.

Lemma quantile_CDF_IndexError_witness :
  exists o,
    truncated_gaussian.init sigmoid_cdf sigmoid_dnorm [Fin 0; Fin 1] (Fin 0) (Fin 2)
      = Ok o /\
    truncated_gaussian.intervals o = Ok [(Fin 0, Fin 1)] /\
    num_lt (Fin 0) (Fin (9 # 10)) = true /\
    num_lt (Fin (9 # 10)) (Fin 1) = true /\
    truncated_gaussian.CDF sigmoid_cdf o (Fin (9 # 10))
      = Ok (Fin ((720 # 3040) / (64 # 384))) /\
    (q <- truncated_gaussian.CDF sigmoid_cdf o (Fin (9 # 10)) ;;
     truncated_gaussian.quantile sigmoid_cdf sigmoid_qnorm o q)%result
      = Raise IndexError.
Proof.
  apply (quantile_CDF_IndexError sigmoid_cdf sigmoid_dnorm sigmoid_qnorm
           (64 # 384) (720 # 3040)); reflexivity.
Defined.

(** The solver on the untruncated line, observed value 0 and
    [alpha = 1/4]: the first loop is skipped, the second is entered. *)
Example _UMAU_whole_line :
  fst (_UMAU sigmoid_cdf sigmoid_dnorm sigmoid_qnorm 1 (Fin 0) (Fin (1 # 4))
         0%nat None None (Fin (1 # 100000000)) {[ 0%nat := whole_line ]})
  = Raise NameError_mu_ho.
Proof. vm_compute. reflexivity. Qed.

(** On the other hand the solver runs to the end when [G <= 0] at the
    initial high guess. *)
Example _UMAU_two_tails :
  fst (_UMAU sigmoid_cdf sigmoid_dnorm sigmoid_qnorm 100 (Fin 3) (Fin (1 # 20))
         0%nat None None (Fin (1 # 100)) {[ 0%nat := two_tails ]})
  = Ok (Some (Fin (1278 # 256))).
Proof. vm_compute. reflexivity. Qed.

(** With the sigmoid primitives [CDF(0.9)] on
    [truncated_gaussian([(0,1)], mu=0, sigma=2)] exceeds 1. *)
Example CDF_exceeds_1 :
  exists o v,
    truncated_gaussian.init sigmoid_cdf sigmoid_dnorm [Fin 0; Fin 1] (Fin 0) (Fin 2)
      = Ok o /\
    truncated_gaussian.CDF sigmoid_cdf o (Fin (9 # 10)) = Ok v /\
    num_gt v (Fin 1) = true.
Proof. do 2 eexists. repeat split; vm_compute; reflexivity. Qed.

(** ** Concrete runs of the further properties *)

Lemma tame_two_tails : tame [NInf; Fin (-1); Fin 1; PInf].
Proof.
  split; [|split; vm_compute; lia].
  repeat (constructor; [reflexivity|]). constructor.
Qed.

Lemma init_two_tails :
  truncated_gaussian.init sigmoid_cdf sigmoid_dnorm
    [NInf; Fin (-1); Fin 1; PInf] (Fin 0) (Fin 1) = Ok two_tails.
Proof. reflexivity. Qed.

Lemma current_two_tails : caches_current sigmoid_cdf sigmoid_dnorm two_tails.
Proof.
  exists [(NInf, Fin (-1)); (Fin 1, PInf)]. repeat split; reflexivity.
Qed.

Lemma constructor_invariant_witness :
  exists o ivs,
    truncated_gaussian.init sigmoid_cdf sigmoid_dnorm
      (flatten2 [(Fin 1, PInf); (Fin 0, Fin 0); (NInf, Fin (-1))])
      (Fin 0) (Fin 1) = Ok o /\
    truncated_gaussian.intervals o = Ok ivs /\
    Forall (fun ab => num_lt (fst ab) (snd ab) = true) ivs /\
    forall i j abi abj, (i < j)%nat ->
      ivs !! i = Some abi -> ivs !! j = Some abj ->
      num_le (snd abi) (fst abj) = true /\
      num_lt (fst abi) (fst abj) = true /\
      forall x, ~ (contains abi x /\ contains abj x).
Proof.
  apply (constructor_invariant sigmoid_cdf sigmoid_dnorm
           [(Fin 1, PInf); (Fin 0, Fin 0); (NInf, Fin (-1))] (Fin 0) (Fin 1)).
  split; [|split; vm_compute; lia].
  repeat (constructor; [reflexivity|]). constructor.
Defined.

Lemma init_from_intervals_witness :
  exists o',
    truncated_gaussian.init sigmoid_cdf sigmoid_dnorm
      (flatten2 [(NInf, Fin (-1)); (Fin 1, PInf)]) (Fin 3) (Fin 2) = Ok o' /\
    truncated_gaussian._cutoff_array o'
      = truncated_gaussian._cutoff_array two_tails /\
    truncated_gaussian.intervals o' = Ok [(NInf, Fin (-1)); (Fin 1, PInf)] /\
    truncated_gaussian._mu o' = Fin 3 /\ truncated_gaussian._sigma o' = Fin 2 /\
    truncated_gaussian._negated o' = None.
Proof.
  exact (init_from_intervals sigmoid_cdf sigmoid_dnorm
           [NInf; Fin (-1); Fin 1; PInf] (Fin 0) (Fin 1) (Fin 3) (Fin 2)
           two_tails [(NInf, Fin (-1)); (Fin 1, PInf)] init_two_tails eq_refl).
Defined.

Lemma find_interval_Ok_iff_witness :
  truncated_gaussian.find_interval two_tails (Fin (-2)) = Ok 0%nat <->
  (exists ab, [(NInf, Fin (-1)); (Fin 1, PInf)] !! 0%nat = Some ab /\
              contains ab (Fin (-2))) /\
  (forall j ab', [(NInf, Fin (-1)); (Fin 1, PInf)] !! j = Some ab' ->
                 contains ab' (Fin (-2)) -> j = 0%nat).
Proof.
  exact (find_interval_Ok_iff two_tails (Fin (-2))
           [(NInf, Fin (-1)); (Fin 1, PInf)] 0%nat eq_refl).
Defined.

Lemma find_interval_constructed_witness :
  truncated_gaussian.find_interval two_tails (Fin 0)
    <> Raise ValueError_not_disjoint /\
  forall ivs k ab, truncated_gaussian.intervals two_tails = Ok ivs ->
    ivs !! k = Some ab -> contains ab (Fin 0) ->
    truncated_gaussian.find_interval two_tails (Fin 0) = Ok k.
Proof.
  exact (find_interval_constructed sigmoid_cdf sigmoid_dnorm
           [NInf; Fin (-1); Fin 1; PInf] (Fin 0) (Fin 1) two_tails (Fin 0)
           tame_two_tails init_two_tails).
Defined.

Lemma endpoints_half_open_witness :
  truncated_gaussian.find_interval two_tails (Fin 1) = Ok 1%nat /\
  truncated_gaussian.find_interval two_tails PInf <> Ok 1%nat.
Proof.
  exact (endpoints_half_open sigmoid_cdf sigmoid_dnorm
           [NInf; Fin (-1); Fin 1; PInf] (Fin 0) (Fin 1) two_tails
           [(NInf, Fin (-1)); (Fin 1, PInf)] 1%nat (Fin 1, PInf)
           tame_two_tails init_two_tails eq_refl eq_refl).
Defined.

Lemma CDF_sigma_1_witness :
  truncated_gaussian.CDF sigmoid_cdf two_tails (Fin 2)
    = CDF_spec sigmoid_cdf two_tails (Fin 2).
Proof.
  exact (CDF_sigma_1 sigmoid_cdf sigmoid_dnorm [NInf; Fin (-1); Fin 1; PInf]
           (Fin 0) two_tails (Fin 2) init_two_tails).
Defined.

Lemma setters_rebuild_witness :
  exists o',
    truncated_gaussian.init sigmoid_cdf sigmoid_dnorm
      [NInf; Fin (-1); Fin 1; PInf] (Fin 3) (Fin 2) = Ok o' /\
    (set_mu sigmoid_cdf sigmoid_dnorm 0%nat (Fin 3) ;;;
     set_sigma sigmoid_cdf sigmoid_dnorm 0%nat (Fin 2))%M {[ 0%nat := two_tails ]}
      = (Ok tt, <[0%nat := o']> {[ 0%nat := two_tails ]}) /\
    (set_sigma sigmoid_cdf sigmoid_dnorm 0%nat (Fin 2) ;;;
     set_mu sigmoid_cdf sigmoid_dnorm 0%nat (Fin 3))%M {[ 0%nat := two_tails ]}
      = (Ok tt, <[0%nat := o']> {[ 0%nat := two_tails ]}).
Proof.
  exact (setters_rebuild sigmoid_cdf sigmoid_dnorm [NInf; Fin (-1); Fin 1; PInf]
           (Fin 0) (Fin 1) (Fin 3) (Fin 2) 0%nat {[ 0%nat := two_tails ]}
           two_tails init_two_tails eq_refl).
Defined.

Lemma twosided_support_witness :
  exists o,
    truncated_gaussian.twosided sigmoid_cdf sigmoid_dnorm (Fin (-1)) (Fin 0) (Fin 1)
      = Ok o /\
    truncated_gaussian.find_interval o (Fin (-1))
      = Raise ValueError_not_in_support.
Proof.
  destruct (twosided_support sigmoid_cdf sigmoid_dnorm (-1) (-1) (Fin 0) (Fin 1))
    as (o & Ho & _ & _ & _ & _ & Hmid).
  exists o. split; [exact Ho|]. apply Hmid; reflexivity || discriminate.
Defined.

Lemma negated_reflects_witness :
  exists n h1 on,
    negated sigmoid_cdf sigmoid_dnorm 0%nat {[ 0%nat := two_tails ]} = (Ok n, h1) /\
    n <> 0%nat /\ ({[ 0%nat := two_tails ]} : heap) !! n = None /\
    h1 !! n = Some on /\
    truncated_gaussian.intervals on
      = Ok (map reflect (rev [(NInf, Fin (-1)); (Fin 1, PInf)])) /\
    truncated_gaussian._mu on = Fin 0 /\ truncated_gaussian._sigma on = Fin 1.
Proof.
  exact (negated_reflects sigmoid_cdf sigmoid_dnorm [NInf; Fin (-1); Fin 1; PInf]
           (Fin 0) (Fin 1) two_tails [(NInf, Fin (-1)); (Fin 1, PInf)] 0%nat
           {[ 0%nat := two_tails ]} tame_two_tails init_two_tails eq_refl eq_refl).
Defined.

Lemma dG_sentinel_witness :
  truncated_gaussian.dG sigmoid_cdf sigmoid_dnorm sigmoid_qnorm two_tails
    (Fin 2) (Fin (1 # 20)) = Ok NaN.
Proof.
  apply (dG_sentinel sigmoid_cdf sigmoid_dnorm sigmoid_qnorm two_tails
           (Fin 2) (Fin (1 # 20)) (Fin (16384 # 24576))); vm_compute; reflexivity.
Defined.

Lemma outside_support_raises_witness :
  truncated_gaussian.CDF sigmoid_cdf two_tails (Fin 0)
    = Raise ValueError_not_in_support /\
  truncated_gaussian.right_endpoint sigmoid_cdf sigmoid_qnorm two_tails
    (Fin 0) (Fin (1 # 20)) = Raise ValueError_not_in_support /\
  truncated_gaussian.dG sigmoid_cdf sigmoid_dnorm sigmoid_qnorm two_tails
    (Fin 0) (Fin (1 # 20)) = Raise ValueError_not_in_support /\
  truncated_gaussian.G sigmoid_cdf sigmoid_dnorm sigmoid_qnorm two_tails
    (Fin 0) (Fin (1 # 20)) = Raise ValueError_not_in_support.
Proof.
  apply (outside_support_raises sigmoid_cdf sigmoid_dnorm sigmoid_qnorm two_tails
           (Fin 0) (Fin (1 # 20)) [(NInf, Fin (-1)); (Fin 1, PInf)]
           current_two_tails eq_refl).
  intros [|[|j]] ab Hj [Ha Hb]; cbn in Hj; try discriminate;
    injection Hj as <-; discriminate.
Defined.

Lemma quantile_out_of_range_witness :
  truncated_gaussian.quantile sigmoid_cdf sigmoid_qnorm two_tails (Fin 0)
    = Raise ValueError_max_empty /\
  truncated_gaussian.quantile sigmoid_cdf sigmoid_qnorm two_tails (Fin 2)
    = Raise IndexError.
Proof.
  assert (Hnn : Forall nonneg (truncated_gaussian.P two_tails)).
  { repeat constructor; eexists; (split; [vm_compute; reflexivity | discriminate]). }
  split.
  - apply (proj1 (quantile_out_of_range sigmoid_cdf sigmoid_dnorm sigmoid_qnorm
                    two_tails 0 (32 # 64) current_two_tails Hnn eq_refl)).
    discriminate.
  - apply (proj2 (quantile_out_of_range sigmoid_cdf sigmoid_dnorm sigmoid_qnorm
                    two_tails 2 (32 # 64) current_two_tails Hnn eq_refl));
      reflexivity.
Defined.

Lemma _UMAU_leaves_store_witness :
  snd (_UMAU sigmoid_cdf sigmoid_dnorm sigmoid_qnorm 100 (Fin 3) (Fin (1 # 20))
         0%nat None None (Fin (1 # 100)) {[ 0%nat := two_tails_scaled ]}) !! 0%nat
    = Some two_tails_scaled.
Proof.
  exact (_UMAU_leaves_store sigmoid_cdf sigmoid_dnorm sigmoid_qnorm 100 (Fin 3)
           (Fin (1 # 20)) (Fin (1 # 100)) 0%nat None None
           {[ 0%nat := two_tails_scaled ]} 0%nat two_tails_scaled eq_refl).
Defined.

Lemma bisection_narrow_bracket_witness :
  bisection sigmoid_cdf sigmoid_dnorm sigmoid_qnorm 1 0%nat (Fin 3) (Fin (1 # 20))
    (Fin 2) (Fin 3, Fin 5) {[ 0%nat := two_tails ]}
    = (Raise UnboundLocalError_mu_bar, {[ 0%nat := two_tails ]}).
Proof.
  exact (bisection_narrow_bracket sigmoid_cdf sigmoid_dnorm sigmoid_qnorm 0 0%nat
           (Fin 3) (Fin (1 # 20)) (Fin 2) (Fin 3, Fin 5)
           {[ 0%nat := two_tails ]} eq_refl).
Defined.


Lemma expand_low_exit_witness :
  let h' := snd (expand_low sigmoid_cdf sigmoid_dnorm sigmoid_qnorm 100 0%nat
                   (Fin 3) (Fin (1 # 20)) (Fin 3, Fin 5) {[ 0%nat := two_tails ]}) in
  ((Fin 3, Fin 5) = (Fin 3, Fin 5) \/
   exists l, (Fin 3, Fin 5) = (num_sub l (Fin 2), l)) /\
  (exists o, h' !! 0%nat = Some o /\ truncated_gaussian._mu o = Fin 3) /\
  exists g, call_G sigmoid_cdf sigmoid_dnorm sigmoid_qnorm 0%nat (Fin 3)
              (Fin (1 # 20)) h' = (Ok g, h') /\
            num_lt g (Fin 0) = false.
Proof.
  cbv zeta.
  apply (expand_low_exit sigmoid_cdf sigmoid_dnorm sigmoid_qnorm 100 0%nat
           (Fin 3) (Fin (1 # 20)) (Fin 3, Fin 5) (Fin 3, Fin 5)
           {[ 0%nat := two_tails ]}).
  rewrite (surjective_pairing (expand_low _ _ _ _ _ _ _ _ _)) at 1.
  f_equal.
Defined.

Lemma batch_length_witness :
  length [Fin 0; Fin 0] = Nat.min (length [Fin 2; Fin 3; Fin 4])
                                  (length [Fin 4; Fin 5]).
Proof.
  apply (batch_length sigmoid_cdf sigmoid_dnorm sigmoid_qnorm
           [Fin 2; Fin 3; Fin 4] [Fin 4; Fin 5] (Fin (1 # 20)) 0%nat
           {[ 0%nat := two_tails ]}
           (snd (G sigmoid_cdf sigmoid_dnorm sigmoid_qnorm [Fin 2; Fin 3; Fin 4]
                   [Fin 4; Fin 5] (Fin (1 # 20)) 0%nat {[ 0%nat := two_tails ]}))
           [Fin 0; Fin 0]).
  left. rewrite (surjective_pairing (G _ _ _ _ _ _ _ _)) at 1.
  f_equal.
Defined.

Lemma overlapping_input_repaired_witness :
  exists o,
    truncated_gaussian.init sigmoid_cdf sigmoid_dnorm
      (flatten2 [(Fin (-1), Fin 1); (Fin 0, Fin 2)]) (Fin 0) (Fin 1) = Ok o /\
    truncated_gaussian.intervals o = Ok [(Fin (-1), Fin 0); (Fin 1, Fin 2)] /\
    truncated_gaussian.find_interval o (Fin (1 # 2))
      = Raise ValueError_not_in_support /\
    truncated_gaussian.CDF sigmoid_cdf o (Fin (1 # 2))
      = Raise ValueError_not_in_support /\
    forall y,
      truncated_gaussian.find_interval o y <> Raise ValueError_not_disjoint /\
      truncated_gaussian.CDF sigmoid_cdf o y <> Raise ValueError_not_disjoint.
Proof.
  apply (overlapping_input_repaired sigmoid_cdf sigmoid_dnorm
           (-1) 0 1 2 (1 # 2) (Fin 0) (Fin 1)); reflexivity || discriminate.
Defined.
